(** * Verification of src/user.js: the user facade over the directory client

    The module is embedded shallowly.  JavaScript strings are sequences of
    UTF-16 code units, promises are outcomes computed by explicit state
    passing over the facade's state (the user cache, the objects shared with
    the caller, the calls issued to the directory client), and the directory
    client is an arbitrary oracle that answers every call. *)

From Stdlib Require Import ZArith QArith Qround List String Ascii Bool Lia.
From Stdlib Require Import DecimalString.
From stdpp Require Import gmap list.

Local Open Scope N_scope.

(** ** JavaScript strings *)

(** A JS string is a sequence of UTF-16 code units. *)
Abbreviation jsstring := (list N).

(** Literals of the source that are plain ASCII are written as Rocq strings. *)
Definition js (s : string) : jsstring :=
  map N_of_ascii (list_ascii_of_string s).

Module Str.

(** [String.prototype.trim] removes the characters of WhiteSpace and
    LineTerminator from both ends. *)
Definition isWhiteSpace (c : N) : bool :=
  (9 <=? c) && (c <=? 13)
  || (c =? 32) || (c =? 160) || (c =? 5760)
  || (8192 <=? c) && (c <=? 8202)
  || (c =? 8232) || (c =? 8233) || (c =? 8239) || (c =? 8287)
  || (c =? 12288) || (c =? 65279).

Fixpoint trimStart (s : jsstring) : jsstring :=
  match s with
  | [] => []
  | c :: s' => if isWhiteSpace c then trimStart s' else s
  end.

Definition trimEnd (s : jsstring) : jsstring := rev (trimStart (rev s)).

Definition trim (s : jsstring) : jsstring := trimEnd (trimStart s).

(** [stripPrefix p s] is the rest of [s] after [p] when [s] starts with [p]. *)
Fixpoint stripPrefix (p s : jsstring) : option jsstring :=
  match p, s with
  | [], _ => Some s
  | _ :: _, [] => None
  | a :: p', b :: s' => if a =? b then stripPrefix p' s' else None
  end.

Definition startsWith (s p : jsstring) : bool :=
  match stripPrefix p s with Some _ => true | None => false end.

Definition endsWith (s p : jsstring) : bool := startsWith (rev s) (rev p).

(** [s.indexOf(p) > -1] *)
Fixpoint includes (s p : jsstring) : bool :=
  startsWith s p ||
  match s with
  | [] => false
  | _ :: s' => includes s' p
  end.

(** [s.replace(/p/g, r)] for a pattern [p] of literal characters, not empty:
    the matches are taken from left to right and do not overlap.  [skip]
    counts the characters of the current match still to be passed over. *)
Fixpoint replaceFrom (p r : jsstring) (skip : nat) (s : jsstring) : jsstring :=
  match s with
  | [] => []
  | c :: s' =>
      match skip with
      | S k => replaceFrom p r k s'
      | O =>
          if startsWith s p
          then r ++ replaceFrom p r (length p - 1) s'
          else c :: replaceFrom p r O s'
      end
  end.

Definition replaceAll (p r s : jsstring) : jsstring := replaceFrom p r O s.

(** [s.split(sep)] for a separator that is not empty.  [cur] holds the
    current piece in reverse. *)
Fixpoint splitFrom (sep : jsstring) (skip : nat) (cur : jsstring)
    (s : jsstring) : list jsstring :=
  match s with
  | [] => [rev cur]
  | c :: s' =>
      match skip with
      | S k => splitFrom sep k cur s'
      | O =>
          if startsWith s sep
          then rev cur :: splitFrom sep (length sep - 1) [] s'
          else splitFrom sep O (c :: cur) s'
      end
  end.

Definition split (sep s : jsstring) : list jsstring := splitFrom sep O [] s.

(** [parts.join(sep)] *)
Fixpoint join (sep : jsstring) (parts : list jsstring) : jsstring :=
  match parts with
  | [] => []
  | [p] => p
  | p :: rest => p ++ sep ++ join sep rest
  end.

(** [String.prototype.toUpperCase] on the Basic Latin and Latin-1 letters
    whose upper case is one code unit of the same block (a-z, and the
    letters from U+00E0 to U+00FE except the division sign).  Other code
    units are left as they are; the pools of createPassword hold none that
    the full function would change. *)
Definition upperUnit (c : N) : N :=
  if (97 <=? c) && (c <=? 122) then c - 32
  else if (224 <=? c) && (c <=? 254) && negb (c =? 247) then c - 32
  else c.

Definition toUpperCase (s : jsstring) : jsstring := map upperUnit s.

End Str.

(** ** Regular expressions

    The literal of isCorrectEmail is anchored at both ends, so [reg.test]
    decides membership of the whole string in the language of the expression.
    Membership is computed with derivatives. *)

Module Regex.

Inductive regex : Type :=
| Void : regex
| Eps : regex
| Class (p : N -> bool) : regex
| Cat (r1 r2 : regex) : regex
| Alt (r1 r2 : regex) : regex
| Star (r : regex) : regex.

(** [r+] *)
Definition Plus (r : regex) : regex := Cat r (Star r).

(** [r?] *)
Definition Opt (r : regex) : regex := Alt Eps r.

(** [r{n}] and [r{0,n}] *)
Fixpoint Exactly (n : nat) (r : regex) : regex :=
  match n with
  | O => Eps
  | S k => Cat r (Exactly k r)
  end.

Fixpoint AtMost (n : nat) (r : regex) : regex :=
  match n with
  | O => Eps
  | S k => Opt (Cat r (AtMost k r))
  end.

(** [r{lo,hi}] *)
Definition Between (lo hi : nat) (r : regex) : regex :=
  Cat (Exactly lo r) (AtMost (hi - lo) r).

Definition Chr (c : N) : regex := Class (N.eqb c).

Fixpoint nullable (r : regex) : bool :=
  match r with
  | Void => false
  | Eps => true
  | Class _ => false
  | Cat r1 r2 => nullable r1 && nullable r2
  | Alt r1 r2 => nullable r1 || nullable r2
  | Star _ => true
  end.

Fixpoint deriv (c : N) (r : regex) : regex :=
  match r with
  | Void => Void
  | Eps => Void
  | Class p => if p c then Eps else Void
  | Cat r1 r2 =>
      if nullable r1
      then Alt (Cat (deriv c r1) r2) (deriv c r2)
      else Cat (deriv c r1) r2
  | Alt r1 r2 => Alt (deriv c r1) (deriv c r2)
  | Star r1 => Cat (deriv c r1) (Star r1)
  end.

(** [/^r$/.test(s)] *)
Fixpoint test (r : regex) (s : jsstring) : bool :=
  match s with
  | [] => nullable r
  | c :: s' => test (deriv c r) s'
  end.

(** The language of an expression. *)
Inductive Matches : regex -> jsstring -> Prop :=
| MEps : Matches Eps []
| MClass p c : p c = true -> Matches (Class p) [c]
| MCat r1 r2 s1 s2 :
    Matches r1 s1 -> Matches r2 s2 -> Matches (Cat r1 r2) (s1 ++ s2)
| MAltL r1 r2 s : Matches r1 s -> Matches (Alt r1 r2) s
| MAltR r1 r2 s : Matches r2 s -> Matches (Alt r1 r2) s
| MStarNil r : Matches (Star r) []
| MStarCons r s1 s2 :
    Matches r s1 -> Matches (Star r) s2 -> Matches (Star r) (s1 ++ s2).

End Regex.

(** ** isCorrectEmail *)

Definition isAlpha (c : N) : bool :=
  (97 <=? c) && (c <=? 122) || (65 <=? c) && (c <=? 90).

Definition isDigit (c : N) : bool := (48 <=? c) && (c <=? 57).

(** The class [[a-zA-Z0-9_\-\.]] *)
Definition isEmailChar (c : N) : bool :=
  isAlpha c || isDigit c || (c =? 95) || (c =? 45) || (c =? 46).

(** [/^[a-zA-Z0-9_\-\.]+@[a-zA-Z0-9_\-\.]+\.[a-zA-Z]{2,5}$/] *)
Definition emailReg : Regex.regex :=
  Regex.Cat (Regex.Plus (Regex.Class isEmailChar))
    (Regex.Cat (Regex.Chr 64)
       (Regex.Cat (Regex.Plus (Regex.Class isEmailChar))
          (Regex.Cat (Regex.Chr 46)
             (Regex.Between 2 5 (Regex.Class isAlpha))))).

(** ** JavaScript values *)

(** The values that attributes, options and arguments take: primitives, and
    arrays of strings (objectClass).  The numbers of user.js are small
    integers (the values of userAccountControl and lockoutTime), which print
    in decimal. *)
Inductive jsval : Type :=
| VUndef : jsval
| VNull : jsval
| VBool (b : bool) : jsval
| VNum (z : Z) : jsval
| VStr (s : jsstring) : jsval
| VArr (l : list jsstring) : jsval.

#[global] Instance jsval_eq_dec : EqDecision jsval.
Proof. solve_decision. Defined.

(** A UserRecord: attribute name to value. *)
Abbreviation Record_ := (gmap jsstring jsval).

(** Any value passed around: a primitive (or array), or an object. *)
Inductive jsany : Type :=
| Prim (v : jsval) : jsany
| Obj (o : Record_) : jsany.

(** ToBoolean *)
Definition truthy (v : jsval) : bool :=
  match v with
  | VUndef | VNull => false
  | VBool b => b
  | VNum z => negb (z =? 0)%Z
  | VStr s => match s with [] => false | _ => true end
  | VArr _ => true
  end.

Definition decimal (z : Z) : jsstring :=
  match z with
  | Z0 => js "0"
  | Zpos p => js (NilEmpty.string_of_uint (Pos.to_uint p))
  | Zneg p => js "-" ++ js (NilEmpty.string_of_uint (Pos.to_uint p))
  end.

(** [String(v)], also the conversion of a template literal. *)
Definition String_ (v : jsval) : jsstring :=
  match v with
  | VUndef => js "undefined"
  | VNull => js "null"
  | VBool true => js "true"
  | VBool false => js "false"
  | VNum z => decimal z
  | VStr s => s
  | VArr l => Str.join (js ",") l
  end.

(** [o.k]: a property that is absent reads as undefined. *)
Definition prop (o : Record_) (k : string) : jsval :=
  default VUndef (o !! js k).

(** The result of evaluating an expression: a value, or a thrown error. *)
Inductive Completion (A : Type) : Type :=
| Normal (a : A) : Completion A
| Throw (e : jsany) : Completion A.
Arguments Normal {A} a.
Arguments Throw {A} e.

(** The TypeError of calling a method that a value does not have. *)
Definition TypeError (msg : string) : jsany :=
  Obj (<[js "name" := VStr (js "TypeError")]> {[js "message" := VStr (js msg)]}).

(** [(!v) || ((v) && (v.trim().length === 0))], the test that isCorrectEmail
    applies to its argument and addUser to [userObject.sAMAccountName].  A
    truthy value that is not a string has no [trim]. *)
Definition isBlank (v : jsval) : Completion bool :=
  if negb (truthy v) then Normal true
  else match v with
       | VStr s => Normal (Nat.eqb (length (Str.trim s)) 0)
       | _ => Throw (TypeError "trim is not a function")
       end.

Definition isCorrectEmail (email : jsval) : Completion bool :=
  match isBlank email with
  | Throw e => Throw e
  | Normal true => Normal false
  | Normal false => Normal (Regex.test emailReg (String_ email))
  end.

(** ** normalizeLocation *)

(** A location is a DN fragment: a string, or nothing ([None] stands for
    undefined).  The test is the one of [isBlank], on a string. *)
Definition normalizeLocation (userLocation : option jsstring) : jsstring :=
  match userLocation with
  | None => js "CN=Users,"
  | Some s =>
      if negb (truthy (VStr s)) || Nat.eqb (length (Str.trim s)) 0
      then js "CN=Users,"
      else if negb (Str.endsWith s (js ",")) then s ++ js "," else s
  end.

(** ** Promises, the facade's state and the directory client *)

(** How a promise ends: resolved, rejected, or never settled. *)
Inductive Outcome (A : Type) : Type :=
| Resolved (a : A) : Outcome A
| Rejected (e : jsany) : Outcome A
| Unsettled : Outcome A.
Arguments Resolved {A} a.
Arguments Rejected {A} e.
Arguments Unsettled {A}.

Definition isResolved {A : Type} (o : Outcome A) : bool :=
  match o with
  | Resolved _ => true
  | _ => false
  end.

(** [resolve] and [reject] settle a promise once; later calls are ignored. *)
Definition settle {A : Type} (p o : Outcome A) : Outcome A :=
  match p with
  | Unsettled => o
  | _ => p
  end.

(** What the directory client hands to the callback of [authenticate] as
    [authorized]: nothing, a boolean, or an object. *)
Inductive AuthResult : Type :=
| AuthMissing : AuthResult
| AuthFlag (b : bool) : AuthResult
| AuthObject (o : Record_) : AuthResult.

(** What user.js does outside itself, in the order in which it happens: the
    calls of the directory client ([find], [authenticate]), the calls of the
    helpers of the facade that are defined elsewhere ([_addObject],
    [_modifyDN], [_userReplaceOperation]), and the deletions from the user
    cache. *)
Inductive Event : Type :=
| EvFind (filter : jsstring) : Event
| EvAuthenticate (fullUser : jsstring) (pass : jsval) : Event
| EvAddObject (name location : jsstring) (obj : Record_) : Event
| EvModifyDN (oldDN : jsval) (newDN : jsstring) : Event
| EvReplace (userName : jsval) (key : jsstring) (value : jsval) : Event
| EvInvalidate (key : jsstring) : Event.

#[global] Instance Event_eq_dec : EqDecision Event.
Proof. solve_decision. Defined.

(** The calls that go to the directory, directly or through a helper. *)
Definition isDirectoryCall (e : Event) : bool :=
  match e with
  | EvInvalidate _ => false
  | _ => true
  end.

Definition isWrite (e : Event) : bool :=
  match e with
  | EvAddObject _ _ _ | EvModifyDN _ _ | EvReplace _ _ _ => true
  | _ => false
  end.

Record World : Type := mkWorld {
  users : gmap jsstring Record_;   (* this._cache.users *)
  objects : gmap nat Record_;      (* the objects the caller shares *)
  trace : list Event;              (* most recent event last *)
  draws : nat                      (* calls of Math.random so far *)
}.

(** What user.js takes from outside: the configuration, the utilities it
    requires, the random source, and the directory client.  The client and
    the helpers built on it ([_addObject], [_modifyDN],
    [_userReplaceOperation]) are an oracle: the answer to a call may depend
    on every call made so far. *)
Record Env : Type := mkEnv {
  domain : jsval;                                   (* this.config.domain *)
  baseDN : jsval;                                   (* this.config.baseDN *)
  processResults : jsval -> list Record_ -> list Record_;
  encodePassword : jsval -> jsval;
  parseLocation : jsval -> jsstring;
  ssha_create : jsstring -> jsval;
  random : nat -> Q;                                (* the n-th Math.random() *)
  fl : Q -> Q;                                      (* rounding of a product *)
  find_reply : list Event -> Outcome (option (list Record_));
  helper_reply : list Event -> Outcome jsany;
  auth_reply : list Event -> option (option Record_ * AuthResult)
}.

(** A computation over the facade's state that ends like a promise. *)
Definition M (A : Type) : Type := World -> Outcome A * World.

#[global] Instance M_ret : MRet M := fun A a w => (Resolved a, w).

#[global] Instance M_bind : MBind M := fun A B f m w =>
  match m w with
  | (Resolved a, w') => f a w'
  | (Rejected e, w') => (Rejected e, w')
  | (Unsettled, w') => (Unsettled, w')
  end.

Definition reject {A : Type} (e : jsany) : M A := fun w => (Rejected e, w).

Definition log (e : Event) (w : World) : World :=
  mkWorld (users w) (objects w) (trace w ++ [e]) (draws w).

(** Modelled from the spec: the user cache of the facade, whose [get] and
    [set] are defined outside user.js.  An entry is a UserRecord or the empty
    record, there is no expiry, and an entry stays until it is deleted. *)
Definition cache_get (key : jsstring) (w : World) : option Record_ :=
  users w !! key.

Definition cache_set (key : jsstring) (value : Record_) (w : World) : World :=
  mkWorld (<[key := value]> (users w)) (objects w) (trace w) (draws w).

(** [delete this._cache.users[key]] *)
Definition cache_delete (key : jsval) : M unit := fun w =>
  (Resolved tt,
   log (EvInvalidate (String_ key))
     (mkWorld (delete (String_ key) (users w)) (objects w) (trace w) (draws w))).

Definition emptyWorld : World := mkWorld ∅ ∅ [] 0.

(** ** The functions of user.js *)

(** The pools of createPassword, as code units:
    ["!·$%&/()=?¿_-{}*⁺"], ["0123456789"], ["qwertyuiopasdfghjklñzxcvbnm"]. *)
Definition specials : jsstring :=
  [33; 183; 36; 37; 38; 47; 40; 41; 61; 63; 191; 95; 45; 123; 125; 42; 8314].
Definition digits : jsstring := js "0123456789".
Definition letters : jsstring :=
  js "qwertyuiopasdfghjkl" ++ [241] ++ js "zxcvbnm".

(** [source[index]] inside a template literal: an index outside the string
    reads undefined. *)
Definition charAt (source : jsstring) (index : Z) : jsstring :=
  if (index <? 0)%Z then js "undefined"
  else match source !! Z.to_nat index with
       | Some c => [c]
       | None => js "undefined"
       end.

(** The fixed values of userAccountControl. *)
Definition NEVER_EXPIRES : Z := 66048.
Definition ENABLED : Z := 512.
Definition DISABLED : Z := 514.

(** [{ error: true, message: 'User does not exist.' }] *)
Definition userDoesNotExist : jsany :=
  Obj (<[js "error" := VBool true]>
         {[js "message" := VStr (js "User does not exist.")]}).

(** The location of getUserLocation, from the dn of the user. *)
Definition locationOfDN (dn : jsval) : jsstring :=
  let left :=
    hd (js "undefined")
      (Str.split (js ",dc=")
         (Str.replaceAll (js "OU=") (js "ou=")
            (Str.replaceAll (js "CN=") (js "cn=")
               (Str.replaceAll (js "DC=") (js "dc=") (String_ dn))))) in
  Str.replaceAll (js "ou=") []
    (Str.replaceAll (js "cn=") (js "!")
       (Str.join (js "/") (rev (tl (Str.split (js ",") left))))).

(** An options object, as its own properties in the order of
    [Object.getOwnPropertyNames]; the names are distinct. *)
Abbreviation Options := (list (jsstring * jsval)).

(** [opts.k] *)
Fixpoint optGet (opts : Options) (k : jsstring) : jsval :=
  match opts with
  | [] => VUndef
  | (k', v) :: rest => if decide (k' = k) then v else optGet rest k
  end.

(** The name under which findUser queries and stores:
    [userName.indexOf('@') > -1 ? userName.split('@')[0] : userName]. *)
Definition lookupKey (userName : jsstring) : jsstring :=
  if Str.includes userName (js "@")
  then hd (js "undefined") (Str.split (js "@") userName)
  else userName.

(** The filter of findUser. *)
Definition userFilter (domain : jsval) (userName : jsstring) : jsstring :=
  js "(|(userPrincipalName=" ++ userName ++ js "@" ++ String_ domain
    ++ js ")(sAMAccountName=" ++ userName ++ js "))".

(** [["top", "person", "organizationalPerson", "user"]] *)
Definition userObjectClass : jsval :=
  VArr [js "top"; js "person"; js "organizationalPerson"; js "user"].

(** [currUserName] after the write of [next]: the new principal name when
    the operation sets one ([next.userPrincipalName !== undefined]). *)
Definition nextUserName (currUserName : jsval) (next : jsstring * jsval)
  : jsval :=
  if decide (optGet [next] (js "userPrincipalName") = VUndef)
  then currUserName
  else optGet [next] (js "userPrincipalName").

Section Facade.

Variable E : Env.

(** [Math.ceil(Math.random() * max)] *)
Definition _getRandomIndex (max : Z) (w : World) : Z * World :=
  (Qceiling (fl E (random E (draws w) * inject_Z max)),
   mkWorld (users w) (objects w) (trace w) (S (draws w))).

(** The loop of _getRandomString, [n] rounds from [result]. *)
Fixpoint randomLoop (source : jsstring) (n : nat) (result : jsstring)
    (w : World) : jsstring * World :=
  match n with
  | O => (result, w)
  | S k =>
      let (index, w') := _getRandomIndex (Z.of_nat (length source) - 1) w in
      randomLoop source k (result ++ charAt source index) w'
  end.

Definition _getRandomString (source : jsstring) (length : nat) (w : World)
  : jsstring * World :=
  randomLoop source length [] w.

Definition createPassword (w : World) : jsstring * World :=
  let (sp, w1) := _getRandomString specials 1 w in
  let (dig, w2) := _getRandomString digits 3 w1 in
  let (upp, w3) := _getRandomString letters 2 w2 in
  let (low, w4) := _getRandomString letters 3 w3 in
  (sp ++ dig ++ Str.toUpperCase upp ++ low, w4).

(** A call of a promise-returning helper of the facade that user.js does
    not define: the call is recorded and the oracle gives its outcome.  What
    a helper does to the cache is not part of user.js and is left out. *)
Definition helper (call : Event) : M jsany := fun w =>
  let w' := log call w in (helper_reply E (trace w'), w').

Definition _addObject (name location : jsstring) (obj : Record_) : M jsany :=
  helper (EvAddObject name location obj).

Definition _modifyDN (oldDN : jsval) (newDN : jsstring) : M jsany :=
  helper (EvModifyDN oldDN newDN).

(** The replacement is an object with one property. *)
Definition _userReplaceOperation (userName : jsval) (key : jsstring)
    (value : jsval) : M jsany :=
  helper (EvReplace userName key value).

(** [results[0]]: undefined when the shaped list is empty. *)
Definition findUser (userName : jsval) (opts : jsval) : M (option Record_) :=
  fun w =>
  let userName := String_ (if truthy userName then userName else VStr []) in
  match cache_get userName w with
  | Some cached => (Resolved (head (processResults E opts [cached])), w)
  | None =>
      let userName := lookupKey userName in
      let filter := userFilter (domain E) userName in
      let w1 := log (EvFind filter) w in
      match find_reply E (trace w1) with
      | Unsettled => (Unsettled, w1)
      | Rejected err => (Rejected err, w1)
      | Resolved None | Resolved (Some []) =>
          (Resolved (Some ∅), cache_set userName ∅ w1)
      | Resolved (Some (first :: rest)) =>
          (Resolved (head (processResults E opts (first :: rest))),
           cache_set userName first w1)
      end
  end.

(** Reading a property of the result of findUser throws on undefined. *)
Definition userObjectOf (r : option Record_) : M Record_ :=
  match r with
  | Some u => mret u
  | None => reject (TypeError "Cannot read properties of undefined")
  end.

Definition setUserPassword (userName : jsval) (pass : jsval) : M jsany :=
  if negb (truthy pass)
  then reject (Obj {[js "message" := VStr (js "No password provided.")]})
  else _userReplaceOperation userName (js "unicodePwd") (encodePassword E pass).

Definition setUserCN (userName : jsval) (cn : jsval) : M jsany :=
  r ← findUser userName VUndef;
  userObject ← userObjectOf r;
  let oldDN := prop userObject "dn" in
  let parts := Str.split (js ",") (String_ oldDN) in
  let parts := (js "CN=" ++ String_ cn) :: tl parts in
  result ← _modifyDN oldDN (Str.join (js ",") parts);
  _ ← cache_delete userName;
  mret result.

Definition setUserProperty (userName : jsval) (key : jsstring) (value : jsval)
  : M jsany :=
  _userReplaceOperation userName key value.

Definition setUserPasswordNeverExpires (userName : jsval) : M jsany :=
  _userReplaceOperation userName (js "userAccountControl") (VNum NEVER_EXPIRES).

Definition enableUser (userName : jsval) : M jsany :=
  _userReplaceOperation userName (js "userAccountControl") (VNum ENABLED).

Definition disableUser (userName : jsval) : M jsany :=
  _userReplaceOperation userName (js "userAccountControl") (VNum DISABLED).

Definition unlockUser (userName : jsval) : M jsany :=
  _userReplaceOperation userName (js "lockoutTime") (VNum 0).

Definition moveUser (userName : jsval) (location : jsval) : M jsany :=
  let location := parseLocation E location in
  r ← findUser userName VUndef;
  userObject ← userObjectOf r;
  let oldDN := prop userObject "dn" in
  let baseDN := Str.replaceAll (js "dc=") (js "DC=") (String_ (baseDN E)) in
  let newDN :=
    js "CN=" ++ String_ (prop userObject "cn") ++ js "," ++ location ++ baseDN in
  result ← _modifyDN oldDN newDN;
  _ ← cache_delete userName;
  mret result.

Definition getUserLocation (userName : jsval) : M jsstring :=
  r ← findUser userName VUndef;
  userObject ← userObjectOf r;
  if decide (userObject = ∅)
  then reject userDoesNotExist
  else mret (locationOfDN (prop userObject "dn")).

(** The operations of updateUser: one per own property of [opts], the
    password encoded. *)
Definition operationsOf (opts : Options) : Options :=
  map (fun kv =>
         (fst kv,
          if decide (fst kv = js "unicodePwd")
          then encodePassword E (snd kv) else snd kv))
      opts.

(** The function [go] of updateUser.  [operations.pop()] takes the last
    operation, so [pending] lists the operations left in the order in
    which they are popped. *)
Fixpoint go (userName : jsval) (pending : Options) (currUserName : jsval)
  : M unit :=
  match pending with
  | [] =>
      _ ← cache_delete currUserName;
      _ ← cache_delete userName;
      mret tt
  | next :: pending' =>
      _ ← setUserProperty currUserName (fst next) (snd next);
      let currUserName := nextUserName currUserName next in
      _ ← cache_delete currUserName;
      go userName pending' currUserName
  end.

(** The chain of updateUser before [go]: the lookup, and the writes for
    commonName, passwordExpires and enabled. *)
Definition updateUser_first (userName : jsval) (opts : Options) : M jsany :=
  let currUserName := userName in
  _ ← findUser currUserName VUndef;
  _ ← (if decide (optGet opts (js "commonName") = VUndef)
       then mret (Prim VUndef)
       else setUserCN currUserName (optGet opts (js "commonName")));
  _ ← (if decide (optGet opts (js "passwordExpires") = VUndef)
       then mret (Prim VUndef)
       else if decide (optGet opts (js "passwordExpires") = VBool false)
            then setUserPasswordNeverExpires userName
            else enableUser userName);
  (if decide (optGet opts (js "enabled") = VUndef)
       then mret (Prim VUndef)
       else if decide (optGet opts (js "enabled") = VBool false)
            then disableUser userName
            else enableUser userName).

Definition updateUser (userName : jsval) (opts : Options) : M unit :=
  let operations := operationsOf opts in
  let currUserName := userName in
  _ ← updateUser_first userName opts;
  go userName (rev operations) currUserName.

(** [out.detail = ...; out.message = ...]: user.js is a script in sloppy
    mode, where an assignment to a property of a boolean is dropped; on
    undefined it throws. *)
Definition annotate (out : AuthResult) (detail message : jsval)
  : Completion AuthResult :=
  match out with
  | AuthMissing => Throw (TypeError "Cannot set properties of undefined")
  | AuthFlag b => Normal (AuthFlag b)
  | AuthObject o =>
      Normal (AuthObject (<[js "message" := message]> (<[js "detail" := detail]> o)))
  end.

(** The callback that authenticateUser passes to the client.  An error
    thrown by the callback leaves the promise unsettled. *)
Definition authenticateCallback (error : option Record_)
    (authorized : AuthResult) : Outcome AuthResult :=
  let out := authorized in
  let folded :=
    match error with
    | Some err =>
        if truthy (prop err "lde_message")
        then
          match annotate out (prop err "lde_message")
                  (VStr (hd (js "undefined")
                           (Str.split (js ":") (String_ (prop err "stack")))))
          with
          | Normal out' => Normal (out', None)
          | Throw e => Throw e
          end
        else Normal (out, Some err)
    | None => Normal (out, None)
    end in
  match folded with
  | Throw _ => Unsettled
  | Normal (_, Some err) => Rejected (Obj err)
  | Normal (out, None) => Resolved out
  end.

Definition authenticateUser (userName : jsval) (pass : jsval) : M AuthResult :=
  fun w =>
  let fullUser := String_ userName ++ js "@" ++ String_ (domain E) in
  let w' := log (EvAuthenticate fullUser pass) w in
  match auth_reply E (trace w') with
  | None => (Unsettled, w')
  | Some (error, authorized) => (authenticateCallback error authorized, w')
  end.

(** [userObject.k = v] on the object that the caller shares. *)
Definition setField (userObject : nat) (k : string) (v : jsval) : M unit :=
  fun w =>
  (Resolved tt,
   mkWorld (users w) (alter (insert (js k) v) userObject (objects w))
     (trace w) (draws w)).

Definition readObject (userObject : nat) : M Record_ := fun w =>
  match objects w !! userObject with
  | Some u => (Resolved u, w)
  | None => (Unsettled, w)
  end.

(** [err.message] *)
Definition errMessage (err : jsany) : Completion jsval :=
  match err with
  | Obj o => Normal (prop o "message")
  | Prim VUndef | Prim VNull =>
      Throw (TypeError "Cannot read properties of undefined")
  | Prim _ => Normal VUndef
  end.

Definition structuredError (message : jsstring) (httpStatus : Z) : jsany :=
  Obj (<[js "message" := VStr message]> {[js "httpStatus" := VNum httpStatus]}).

(** The catch block of addUser, on a promise in state [p]. *)
Definition addUser_catch {A : Type} (sAMAccountName : jsval) (err : jsany)
    (p : Outcome A) : Outcome A :=
  match errMessage err with
  | Throw _ => p
  | Normal message =>
      if Str.includes (String_ message) (js "ENTRY_EXISTS")
      then settle p (Rejected (structuredError
             (js "User " ++ String_ sAMAccountName ++ js " already exists.") 400))
      else settle p (Rejected (structuredError
             (js "Error creating user: " ++ String_ message) 503))
  end.

(** The two checks that open the try block: each calls [reject] and goes
    on.  The result is the state of the promise after them, and the error
    that a check has thrown, if one has: a rejection of the first check
    stands when the second throws. *)
Definition addUser_validate {A : Type} (u : Record_)
  : Outcome A * option jsany :=
  match isCorrectEmail (prop u "mail") with
  | Throw e => (Unsettled, Some e)
  | Normal ok =>
      let p1 :=
        if negb ok
        then settle Unsettled
               (Rejected (Prim (VStr (js "Incorrect email address: "
                                        ++ String_ (prop u "mail")))))
        else Unsettled in
      match isBlank (prop u "sAMAccountName") with
      | Throw e => (p1, Some e)
      | Normal blank =>
          (if blank
           then settle p1
                  (Rejected (Prim (VStr (js "sAMAccountName not specified"))))
           else p1,
           None)
      end
  end.

(** The rest of the try block, from createPassword to enableUser; a
    rejection stands for the error that reaches the catch block. *)
Definition addUser_create (userObject : nat) (userLocation : option jsstring)
  : M jsstring :=
  fun w =>
  let (password, w1) := createPassword w in
  (_ ← setField userObject "userPassword" (ssha_create E password);
   let userLocation := normalizeLocation userLocation in
   _ ← setField userObject "objectClass" userObjectClass;
   u ← readObject userObject;
   let sAMAccountName := prop u "sAMAccountName" in
   _ ← _addObject (js "CN=" ++ String_ sAMAccountName) userLocation u;
   _ ← setUserPassword sAMAccountName (VStr password);
   _ ← enableUser sAMAccountName;
   mret password) w1.

(** addUser resolves with [{ userObject, password }], the object being the
    one that the caller passed; the location is a string or undefined.  A
    reference that denotes no object stands for a call without one: reading
    [userObject.mail] throws a TypeError, whose message holds no
    ENTRY_EXISTS, so the catch block does not read [userObject] again and
    rejects with its second error. *)
Definition addUser (userObject : nat) (userLocation : option jsstring)
  : M (nat * jsstring) :=
  fun w =>
  match objects w !! userObject with
  | None =>
      (addUser_catch VUndef (TypeError "Cannot read properties of undefined")
         Unsettled, w)
  | Some u =>
      let sAMAccountName := prop u "sAMAccountName" in
      match addUser_validate u with
      | (p, Some e) => (addUser_catch sAMAccountName e p, w)
      | (p, None) =>
          match addUser_create userObject userLocation w with
          | (Resolved password, w') =>
              (settle p (Resolved (userObject, password)), w')
          | (Rejected e, w') => (addUser_catch sAMAccountName e p, w')
          | (Unsettled, w') => (p, w')
          end
      end
  end.

End Facade.

(** ** Shapes that the statements use *)

(** A string shaped like an address: a local part and a domain of letters,
    digits, [_], [-] and [.], neither empty, then a dot and two to five
    letters. *)
Definition EmailShaped (s : jsstring) : Prop :=
  exists loc dom tld,
    s = loc ++ [64] ++ dom ++ [46] ++ tld /\
    loc <> [] /\ forallb isEmailChar loc = true /\
    dom <> [] /\ forallb isEmailChar dom = true /\
    (2 <= length tld <= 5)%nat /\ forallb isAlpha tld = true.

(** The upper case of the letters pool: ["QWERTYUIOPASDFGHJKLÑZXCVBNM"]. *)
Definition upperLetters : jsstring :=
  js "QWERTYUIOPASDFGHJKL" ++ [209] ++ js "ZXCVBNM".

(** The random source draws from [0, 1), and the product with [max] is
    rounded by a function that is monotone and exact on the integers, as
    rounding to the nearest double is. *)
Definition RandomInRange (E : Env) : Prop :=
  forall n, (0 <= random E n /\ random E n < 1)%Q.

Definition RoundingMonotone (E : Env) : Prop :=
  forall x y, (x <= y)%Q -> (fl E x <= fl E y)%Q.

Definition RoundingExact (E : Env) : Prop :=
  forall z, (fl E (inject_Z z) == inject_Z z)%Q.

(** The events of a run of writes that all succeed, the first under
    [currUserName]: each write is followed by the deletion of the entry of
    the name that is current after it. *)
Fixpoint writesDone (currUserName : jsval) (ops : Options) : list Event :=
  match ops with
  | [] => []
  | next :: ops' =>
      EvReplace currUserName (fst next) (snd next)
        :: EvInvalidate (String_ (nextUserName currUserName next))
        :: writesDone (nextUserName currUserName next) ops'
  end.

Definition userNameAfter (currUserName : jsval) (ops : Options) : jsval :=
  fold_left nextUserName ops currUserName.

(** The trace at the moment the write of [next] is issued, after the writes
    of [done], from the trace [t0]. *)
Definition writeCall (t0 : list Event) (userName : jsval) (done : Options)
    (next : jsstring * jsval) : list Event :=
  t0 ++ writesDone userName done
     ++ [EvReplace (userNameAfter userName done) (fst next) (snd next)].

(** ** The shape of a DN *)

(** The relative names between the leaf and the base DN are organizational
    units or containers. *)
Inductive RDNKind : Type := OU | CN.

Abbreviation RDN := (RDNKind * jsstring)%type.

Definition rdn (c : RDN) : jsstring :=
  match fst c with
  | OU => js "OU=" ++ snd c
  | CN => js "CN=" ++ snd c
  end.

(** [CN=leaf,chain...,DC=base]: the leaf, the chain from the innermost
    container outwards, and the base DN from its first DC component on. *)
Definition dnOf (leaf : jsstring) (chain : list RDN) (base : jsstring)
  : jsstring :=
  Str.join (js ",") ((js "CN=" ++ leaf) :: map rdn chain ++ [js "DC=" ++ base]).

(** A name without a comma and without an equals sign. *)
Definition plainName (n : jsstring) : bool :=
  forallb (fun c => negb (c =? 44) && negb (c =? 61)) n.

(** How a component of the chain shows in the location: an organizational
    unit by its name, a container by [!] and its name. *)
Definition shown (c : RDN) : jsstring :=
  match fst c with
  | OU => snd c
  | CN => js "!" ++ snd c
  end.

(** The chain from the root to the leaf, joined with [/]. *)
Definition pathOf (chain : list RDN) : jsstring :=
  Str.join (js "/") (rev (map shown chain)).

(** Strings without an equals sign, and without a comma. *)
Definition noEq (s : jsstring) : Prop := Forall (fun c => c <> 61) s.
Definition noComma (s : jsstring) : Prop := Forall (fun c => c <> 44) s.

(** The two letters of a label, in upper and in lower case. *)
Definition labUpper (k : RDNKind) : N * N :=
  match k with
  | OU => (79, 85)
  | CN => (67, 78)
  end.

Definition labLower (k : RDNKind) : N * N :=
  match k with
  | OU => (111, 117)
  | CN => (99, 110)
  end.

(** The chain as text: every component preceded by [sep], labelled by
    [lab]. *)
Definition chainText (lab : RDNKind -> N * N) (sep : N) (chain : list RDN)
  : jsstring :=
  concat (map (fun c => sep :: fst (lab (fst c)) :: snd (lab (fst c)) :: 61
                         :: snd c) chain).

(** A DN as text: the leaf under the label [l], the chain, and the first
    component of the base under the label [xy], followed by [rest]. *)
Definition dnText (l : N * N) (leaf : jsstring) (lab : RDNKind -> N * N)
    (chain : list RDN) (xy : N * N) (rest : jsstring) : jsstring :=
  fst l :: snd l :: 61 :: leaf ++ chainText lab 44 chain
    ++ 44 :: fst xy :: snd xy :: 61 :: rest.

(** The effect of replacing the label [ab] by [ab'] on a label. *)
Definition relabel (ab ab' xy : N * N) : N * N :=
  if (fst ab =? fst xy) && (snd ab =? snd xy) then ab' else xy.

Definition lowRdn (c : RDN) : jsstring :=
  fst (labLower (fst c)) :: snd (labLower (fst c)) :: 61 :: snd c.

(** A component after [cn=] has become [!]. *)
Definition midRdn (c : RDN) : jsstring :=
  match fst c with
  | OU => js "ou=" ++ snd c
  | CN => js "!" ++ snd c
  end.

(** ** A small directory, to run the functions on *)

Module Demo.

Definition janeAt (dn : jsstring) : Record_ :=
  <[js "dn" := VStr dn]>
    (<[js "cn" := VStr (js "Jane")]>
       {[js "sAMAccountName" := VStr (js "jane")]}).

Definition jane : Record_ :=
  janeAt (js "CN=Jane,OU=Sales,OU=EMEA,DC=corp,DC=com").

Definition lastEvent (t : list Event) : option Event := last t.

(** The DN of jane after the renames issued so far. *)
Fixpoint currentDN (t : list Event) (dn : jsstring) : jsstring :=
  match t with
  | [] => dn
  | EvModifyDN (VStr _) newDN :: t' => currentDN t' newDN
  | _ :: t' => currentDN t' dn
  end.

(** The directory holds one user, jane. *)
Definition findJane (t : list Event) : Outcome (option (list Record_)) :=
  match lastEvent t with
  | Some (EvFind filter) =>
      if Str.includes filter (js "(sAMAccountName=jane)")
      then Resolved
             (Some [janeAt (currentDN t (js "CN=Jane,OU=Sales,OU=EMEA,DC=corp,DC=com"))])
      else Resolved (Some [])
  | _ => Unsettled
  end.

(** Every helper call succeeds. *)
Definition helperOk (t : list Event) : Outcome jsany :=
  Resolved (Obj {[js "success" := VBool true]}).

(** Every helper call succeeds, except a rename without an old DN. *)
Definition helperStrict (t : list Event) : Outcome jsany :=
  match lastEvent t with
  | Some (EvModifyDN VUndef _) =>
      Rejected (Obj {[js "message" := VStr (js "DN is not a string")]})
  | _ => Resolved (Obj {[js "success" := VBool true]})
  end.

Definition invalidCredentials : Record_ :=
  <[js "lde_message" := VStr (js "80090308: LdapErr: DSID-0C09042A")]>
    {[js "stack" := VStr (js "InvalidCredentialsError: 80090308")]}.

(** The client refuses the credentials and passes [false] as the result. *)
Definition authRefused (t : list Event)
  : option (option Record_ * AuthResult) :=
  Some (Some invalidCredentials, AuthFlag false).

(** What addUser is given: a bad address, and no account name. *)
Definition badMail : Record_ :=
  <[js "mail" := VStr (js "bad")]> {[js "sAMAccountName" := VStr (js "jane")]}.

Definition noAccountName : Record_ := {[js "mail" := VStr (js "a@b.co")]}.

Definition newUser : Record_ :=
  <[js "mail" := VStr (js "joe@corp.com")]>
    {[js "sAMAccountName" := VStr (js "joe")]}.

Definition withObject (u : Record_) : World := mkWorld ∅ {[0%nat := u]} [] 0.

(** The client refuses the credentials and passes a result object. *)
Definition authRefusedObject (t : list Event)
  : option (option Record_ * AuthResult) :=
  Some (Some invalidCredentials,
        AuthObject {[js "authenticated" := VBool false]}).

Definition envWith (helper : list Event -> Outcome jsany)
    (auth : list Event -> option (option Record_ * AuthResult)) : Env :=
  {| domain := VStr (js "corp.com");
     baseDN := VStr (js "dc=corp,dc=com");
     processResults := fun _ rows => rows;
     encodePassword := fun v => v;
     parseLocation := fun v => String_ v ++ js ",";
     ssha_create := fun s => VStr (js "{SSHA}" ++ s);
     random := fun n => (Z.of_nat (n mod 7) # 7)%Q;
     fl := fun x => x;
     find_reply := findJane;
     helper_reply := helper;
     auth_reply := auth |}.

Definition env : Env := envWith helperOk authRefused.

Definition envStrict : Env := envWith helperStrict authRefused.

End Demo.

(** ** userIsMemberOf and removeUser *)

(** The calls of these two functions that leave user.js: the helpers
    [_getGroupUsers] and [_deleteObjectByDN], which are defined elsewhere. *)
Inductive Call : Type :=
| CallGetGroupUsers (groupName : jsval) : Call
| CallDeleteObjectByDN (dn : jsval) : Call.

(** How [_deleteObjectByDN] ends: with a response, with an error object, or
    never. *)
Inductive DeleteReply : Type :=
| DeleteOk (resp : jsany) : DeleteReply
| DeleteErr (err : Record_) : DeleteReply
| DeleteNever : DeleteReply.

(** The state of the facade together with the calls above, most recent
    last. *)
Record Session : Type := mkSession {
  world : World;
  calls : list Call
}.

(** The answers to these calls; an answer may depend on everything that has
    been called so far. *)
Record Env2 : Type := mkEnv2 {
  group_reply : list Event -> list Call -> Outcome (list Record_);
  delete_reply : list Event -> list Call -> DeleteReply
}.

Definition M2 (A : Type) : Type := Session -> Outcome A * Session.

(** [a === b] on the values of attributes; two arrays are two objects. *)
Definition strictEq (a b : jsval) : bool :=
  match a, b with
  | VUndef, VUndef => true
  | VNull, VNull => true
  | VBool x, VBool y => Bool.eqb x y
  | VNum x, VNum y => (x =? y)%Z
  | VStr x, VStr y => bool_decide (x = y)
  | _, _ => false
  end.

Section MoreFacade.

Variable E : Env.
Variable H : Env2.

(** A function of the first part, run on the session. *)
Definition onWorld {A : Type} (m : M A) : M2 A := fun s =>
  let (o, w') := m (world s) in (o, mkSession w' (calls s)).

Definition _getGroupUsers (groupName : jsval) : M2 (list Record_) := fun s =>
  let s' := mkSession (world s) (calls s ++ [CallGetGroupUsers groupName]) in
  (group_reply H (trace (world s')) (calls s'), s').

Definition userIsMemberOf (userName groupName : jsval) : M2 bool := fun s =>
  match onWorld (findUser E userName VUndef) s with
  | (Resolved (Some userObject), s1) =>
      let userDN := prop userObject "dn" in
      match _getGroupUsers groupName s1 with
      | (Resolved users, s2) =>
          let users := List.filter (fun u => strictEq (prop u "dn") userDN) users in
          (Resolved (Nat.ltb 0 (length users)), s2)
      | (Rejected err, s2) => (Rejected err, s2)
      | (Unsettled, s2) => (Unsettled, s2)
      end
  | (Resolved None, s1) =>
      (Rejected (TypeError "Cannot read properties of undefined"), s1)
  | (Rejected err, s1) => (Rejected err, s1)
  | (Unsettled, s1) => (Unsettled, s1)
  end.

(** [Object.assign(err, { error: true })] *)
Definition flagError (err : Record_) : jsany :=
  Obj (<[js "error" := VBool true]> err).

(** The chain on findUser has no catch: when the lookup rejects, or when
    the handler throws on an undefined result, nothing settles the
    promise. *)
Definition removeUser (userName : jsval) : M2 jsany := fun s =>
  match onWorld (findUser E userName VUndef) s with
  | (Resolved (Some userObject), s1) =>
      if decide (userObject = ∅)
      then (Rejected userDoesNotExist, s1)
      else
        let s2 :=
          mkSession (world s1)
            (calls s1 ++ [CallDeleteObjectByDN (prop userObject "dn")]) in
        match delete_reply H (trace (world s2)) (calls s2) with
        | DeleteOk resp => (Resolved resp, s2)
        | DeleteErr err => (Rejected (flagError err), s2)
        | DeleteNever => (Unsettled, s2)
        end
  | (_, s1) => (Unsettled, s1)
  end.

End MoreFacade.

(** ** More shapes that the statements use *)

(** No draw is zero, and rounding does not take a positive product to
    zero. *)
Definition RandomPositive (E : Env) : Prop :=
  forall n, (0 < random E n)%Q.

Definition RoundingPositive (E : Env) : Prop :=
  forall x, (0 < x)%Q -> (0 < fl E x)%Q.

(** No key of the user cache holds an [@]. *)
Definition CacheKeysBare (w : World) : Prop :=
  forall k, is_Some (users w !! k) -> Str.includes k (js "@") = false.

(** Every key of [w'] is a key of [w] or holds no [@]. *)
Definition KeysFrom (w w' : World) : Prop :=
  forall k, is_Some (users w' !! k) ->
            is_Some (users w !! k) \/ Str.includes k (js "@") = false.

(** A computation that adds no key with an [@] to the cache. *)
Definition Keeps {A : Type} (m : M A) : Prop :=
  forall w, KeysFrom w (snd (m w)).

(** [String(userName || '')], the name under which findUser looks the cache
    up. *)
Definition rawName (userName : jsval) : jsstring :=
  String_ (if truthy userName then userName else VStr []).

(** The three calls of addUser for the object [u] and the generated
    [password], and the error that its catch block makes of an error
    object. *)
Definition createdObject (E : Env) (u : Record_) (password : jsstring)
  : Record_ :=
  <[js "objectClass" := userObjectClass]>
    (<[js "userPassword" := ssha_create E password]> u).

Definition createCall (E : Env) (u : Record_)
    (userLocation : option jsstring) (password : jsstring) : Event :=
  EvAddObject (js "CN=" ++ String_ (prop u "sAMAccountName"))
    (normalizeLocation userLocation) (createdObject E u password).

Definition passwordCall (E : Env) (u : Record_) (password : jsstring)
  : Event :=
  EvReplace (prop u "sAMAccountName") (js "unicodePwd")
    (encodePassword E (VStr password)).

Definition enableCall (u : Record_) : Event :=
  EvReplace (prop u "sAMAccountName") (js "userAccountControl") (VNum ENABLED).

Definition creationError (u : Record_) (err : Record_) : jsany :=
  if Str.includes (String_ (prop err "message")) (js "ENTRY_EXISTS")
  then structuredError
         (js "User " ++ String_ (prop u "sAMAccountName")
            ++ js " already exists.") 400
  else structuredError
         (js "Error creating user: " ++ String_ (prop err "message")) 503.

(** ** More directories *)

Module Scenario.

Definition directoryDown : jsany :=
  Obj {[js "message" := VStr (js "connect ECONNREFUSED")]}.

(** The directory cannot be reached. *)
Definition findFails (t : list Event) : Outcome (option (list Record_)) :=
  Rejected directoryDown.

Definition entryExists : jsany :=
  Obj {[js "message" := VStr (js "ENTRY_EXISTS: 00002071")]}.

(** The object exists already. *)
Definition createFails (t : list Event) : Outcome jsany :=
  match last t with
  | Some (EvAddObject _ _ _) => Rejected entryExists
  | _ => Resolved (Obj {[js "success" := VBool true]})
  end.

Definition insufficientAccess : jsany :=
  Obj {[js "message" := VStr (js "INSUFFICIENT_ACCESS_RIGHTS")]}.

(** Every write is refused. *)
Definition writesRefused (t : list Event) : Outcome jsany :=
  Rejected insufficientAccess.

Definition envOf (find : list Event -> Outcome (option (list Record_)))
    (helper : list Event -> Outcome jsany) : Env :=
  {| domain := VStr (js "corp.com");
     baseDN := VStr (js "dc=corp,dc=com");
     processResults := fun _ rows => rows;
     encodePassword := fun v => v;
     parseLocation := fun v => String_ v ++ js ",";
     ssha_create := fun s => VStr (js "{SSHA}" ++ s);
     random := fun n => (Z.of_nat (S (n mod 7)) # 8)%Q;
     fl := fun x => x;
     find_reply := find;
     helper_reply := helper;
     auth_reply := Demo.authRefused |}.

Definition envDown : Env := envOf findFails Demo.helperOk.
Definition envExists : Env := envOf Demo.findJane createFails.
Definition envRefused : Env := envOf Demo.findJane writesRefused.
Definition envPositive : Env := envOf Demo.findJane Demo.helperOk.

(** The group holds jane and a member without a dn. *)
Definition groupOf (t : list Event) (c : list Call)
  : Outcome (list Record_) :=
  Resolved [Demo.jane; {[js "cn" := VStr (js "orphan")]}].

Definition deleteOk (t : list Event) (c : list Call) : DeleteReply :=
  DeleteOk (Obj {[js "success" := VBool true]}).

Definition deleteRefused (t : list Event) (c : list Call) : DeleteReply :=
  DeleteErr {[js "message" := VStr (js "INSUFFICIENT_ACCESS_RIGHTS")]}.

Definition env2Of (del : list Event -> list Call -> DeleteReply) : Env2 :=
  {| group_reply := groupOf;
     delete_reply := del |}.

Definition emptySession : Session := mkSession emptyWorld [].

End Scenario.


(** * Proofs *)

(** ** The derivative matcher decides the language *)

Section RegexFacts.

Import Regex.

Lemma nullable_Matches (r : regex) : nullable r = true <-> Matches r [].
Proof.
  split.
  - induction r; simpl; intros H; try discriminate.
    + constructor.
    + apply andb_true_iff in H as [H1 H2].
      apply (MCat _ _ [] []); auto.
    + apply orb_true_iff in H as [H | H]; [apply MAltL | apply MAltR]; auto.
    + constructor.
  - intros H. remember [] as s eqn:Hs.
    induction H; simpl; auto; try discriminate.
    + apply app_eq_nil in Hs as [-> ->].
      rewrite IHMatches1, IHMatches2; auto.
    + rewrite IHMatches; auto.
    + rewrite IHMatches; auto. apply orb_true_r.
Qed.

Lemma Matches_Star_cons (r : regex) (c : N) (s : jsstring) :
  Matches (Star r) (c :: s) ->
  exists s1 s2, s = s1 ++ s2 /\ Matches r (c :: s1) /\ Matches (Star r) s2.
Proof.
  intros H. remember (Star r) as r' eqn:Hr. remember (c :: s) as cs eqn:Hcs.
  revert Hr Hcs.
  induction H; intros Hr Hcs; try discriminate.
  injection Hr as ->.
  destruct s1 as [| c' s1'].
  - simpl in Hcs. apply IHMatches2; auto.
  - simpl in Hcs. injection Hcs as Hc Hs. subst c' s. exists s1', s2. auto.
Qed.

Lemma deriv_Matches (r : regex) (c : N) (s : jsstring) :
  Matches (deriv c r) s <-> Matches r (c :: s).
Proof.
  revert s. induction r as [| | p | r1 IH1 r2 IH2 | r1 IH1 r2 IH2 | r IH];
    intros s; simpl.
  - split; intros H; inversion H.
  - split; intros H; inversion H.
  - split; intros H.
    + destruct (p c) eqn:Hp; inversion H; subst. constructor; auto.
    + inversion H as [| ? ? Hp | | | | |]; subst. rewrite Hp. constructor.
  - split; intros H.
    + assert (Hcat : forall t, Matches (Cat (deriv c r1) r2) t ->
                               Matches (Cat r1 r2) (c :: t)).
      { intros t Ht. inversion Ht as [| | ? ? s1 s2 H1 H2 | | | |]; subst.
        apply (MCat r1 r2 (c :: s1) s2); auto. apply IH1; auto. }
      destruct (nullable r1) eqn:Hn.
      * inversion H as [| | | ? ? ? H1 | ? ? ? H1 | |]; subst; auto.
        apply (MCat r1 r2 [] (c :: s)).
        -- apply nullable_Matches; auto.
        -- apply IH2; auto.
      * auto.
    + inversion H as [| | ? ? s1 s2 H1 H2 | | | |]; subst.
      match goal with Hs : s1 ++ s2 = c :: s |- _ => rename Hs into Heq end.
      destruct s1 as [| c' s1'].
      * simpl in Heq. subst s2.
        apply nullable_Matches in H1. rewrite H1.
        apply MAltR. apply IH2; auto.
      * simpl in Heq. injection Heq as Hc Hs. subst c' s.
        assert (Hl : Matches (Cat (deriv c r1) r2) (s1' ++ s2)).
        { constructor; auto. apply IH1; auto. }
        destruct (nullable r1); auto. apply MAltL; auto.
  - split; intros H.
    + inversion H; subst; [apply MAltL; apply IH1 | apply MAltR; apply IH2]; auto.
    + inversion H; subst; [apply MAltL; apply IH1 | apply MAltR; apply IH2]; auto.
  - split; intros H.
    + inversion H as [| | ? ? s1 s2 H1 H2 | | | |]; subst.
      apply (MStarCons r (c :: s1) s2); auto. apply IH; auto.
    + apply Matches_Star_cons in H as (s1 & s2 & -> & H1 & H2).
      constructor; auto. apply IH; auto.
Qed.

Lemma test_Matches (r : regex) (s : jsstring) :
  test r s = true <-> Matches r s.
Proof.
  revert r. induction s as [| c s IH]; intros r; simpl.
  - apply nullable_Matches.
  - rewrite IH. apply deriv_Matches.
Qed.

Lemma Matches_Class (p : N -> bool) (s : jsstring) :
  Matches (Class p) s <-> exists c, s = [c] /\ p c = true.
Proof.
  split.
  - intros H. inversion H; subst. eauto.
  - intros (c & -> & Hc). constructor; auto.
Qed.

Lemma Matches_Chr (c : N) (s : jsstring) : Matches (Chr c) s <-> s = [c].
Proof.
  unfold Chr. rewrite Matches_Class. split.
  - intros (c' & -> & Hc). apply N.eqb_eq in Hc. subst; auto.
  - intros ->. exists c. split; auto. apply N.eqb_refl.
Qed.

Lemma Matches_Star_Class (p : N -> bool) (s : jsstring) :
  Matches (Star (Class p)) s <-> forallb p s = true.
Proof.
  split.
  - intros H. remember (Star (Class p)) as r eqn:Hr.
    induction H; try discriminate; auto.
    injection Hr as ->.
    apply Matches_Class in H as (c & -> & Hc).
    simpl. rewrite Hc. auto.
  - induction s as [| c s IH]; simpl; intros H.
    + constructor.
    + apply andb_true_iff in H as [Hc Hs].
      apply (MStarCons (Class p) [c] s); auto. constructor; auto.
Qed.

Lemma Matches_Plus_Class (p : N -> bool) (s : jsstring) :
  Matches (Plus (Class p)) s <-> s <> [] /\ forallb p s = true.
Proof.
  unfold Plus. split.
  - intros H. inversion H as [| | ? ? s1 s2 H1 H2 | | | |]; subst.
    apply Matches_Class in H1 as (c & -> & Hc).
    apply Matches_Star_Class in H2. simpl. rewrite Hc, H2. split; auto.
  - intros [Hne H]. destruct s as [| c s]; [congruence |].
    simpl in H. apply andb_true_iff in H as [Hc Hs].
    apply (MCat (Class p) (Star (Class p)) [c] s).
    + constructor; auto.
    + apply Matches_Star_Class; auto.
Qed.

Lemma Matches_Exactly_Class (n : nat) (p : N -> bool) (s : jsstring) :
  Matches (Exactly n (Class p)) s <-> length s = n /\ forallb p s = true.
Proof.
  revert s. induction n as [| n IH]; intros s; simpl.
  - split.
    + intros H. inversion H; subst. auto.
    + intros [Hl _]. destruct s; [constructor | discriminate].
  - split.
    + intros H. inversion H as [| | ? ? s1 s2 H1 H2 | | | |]; subst.
      apply Matches_Class in H1 as (c & -> & Hc).
      apply IH in H2 as [Hl Hs]. simpl. rewrite Hc, Hs, Hl. auto.
    + intros [Hl H]. destruct s as [| c s]; [discriminate |].
      simpl in *. apply andb_true_iff in H as [Hc Hs].
      apply (MCat (Class p) _ [c] s); [constructor; auto |].
      apply IH. split; auto.
Qed.

Lemma Matches_AtMost_Class (n : nat) (p : N -> bool) (s : jsstring) :
  Matches (AtMost n (Class p)) s <-> (length s <= n)%nat /\ forallb p s = true.
Proof.
  revert s. induction n as [| n IH]; intros s; simpl.
  - split.
    + intros H. inversion H; subst. auto.
    + intros [Hl _]. destruct s; [constructor | simpl in Hl; lia].
  - unfold Opt. split.
    + intros H. inversion H as [| | | ? ? ? H1 | ? ? ? H1 | |]; subst.
      * inversion H1; subst. simpl. split; auto. lia.
      * inversion H1 as [| | ? ? s1 s2 H2 H3 | | | |]; subst.
        apply Matches_Class in H2 as (c & -> & Hc).
        apply IH in H3 as [Hl Hs]. simpl. rewrite Hc, Hs. split; auto. lia.
    + intros [Hl H]. destruct s as [| c s].
      * apply MAltL. constructor.
      * simpl in *. apply andb_true_iff in H as [Hc Hs].
        apply MAltR. apply (MCat (Class p) _ [c] s); [constructor; auto |].
        apply IH. split; auto. lia.
Qed.

Lemma Matches_Between_Class (lo hi : nat) (p : N -> bool) (s : jsstring) :
  (lo <= hi)%nat ->
  Matches (Between lo hi (Class p)) s <->
  (lo <= length s <= hi)%nat /\ forallb p s = true.
Proof.
  intros Hlh. unfold Between. split.
  - intros H. inversion H as [| | ? ? s1 s2 H1 H2 | | | |]; subst.
    apply Matches_Exactly_Class in H1 as [Hl1 Hp1].
    apply Matches_AtMost_Class in H2 as [Hl2 Hp2].
    rewrite length_app, forallb_app, Hp1, Hp2. split; auto. lia.
  - intros [Hl Hp].
    rewrite <- (firstn_skipn lo s) in Hp |- *.
    rewrite forallb_app in Hp. apply andb_true_iff in Hp as [Hp1 Hp2].
    constructor.
    + apply Matches_Exactly_Class. split; auto.
      rewrite length_firstn. lia.
    + apply Matches_AtMost_Class. split; auto.
      rewrite length_skipn. lia.
Qed.

End RegexFacts.

(** ** isCorrectEmail *)

Lemma emailReg_shaped (s : jsstring) :
  Regex.test emailReg s = true <-> EmailShaped s.
Proof.
  rewrite test_Matches. unfold emailReg, EmailShaped. split.
  - intros H.
    inversion H as [| | ? ? loc s1 Hloc H1 | | | |]; subst.
    inversion H1 as [| | ? ? at_ s2 Hat H2 | | | |]; subst.
    inversion H2 as [| | ? ? dom s3 Hdom H3 | | | |]; subst.
    inversion H3 as [| | ? ? dot tld Hdot Htld | | | |]; subst.
    apply Matches_Plus_Class in Hloc as [Hl1 Hl2].
    apply Matches_Chr in Hat. subst at_.
    apply Matches_Plus_Class in Hdom as [Hd1 Hd2].
    apply Matches_Chr in Hdot. subst dot.
    apply Matches_Between_Class in Htld as [Ht1 Ht2]; [| lia].
    exists loc, dom, tld. auto 10.
  - intros (loc & dom & tld & -> & Hl1 & Hl2 & Hd1 & Hd2 & Ht1 & Ht2).
    constructor; [apply Matches_Plus_Class; auto |].
    constructor; [apply Matches_Chr; auto |].
    constructor; [apply Matches_Plus_Class; auto |].
    constructor; [apply Matches_Chr; auto |].
    apply Matches_Between_Class; auto.
Qed.

Lemma trimStart_nil (s : jsstring) :
  Str.trimStart s = [] <-> forallb Str.isWhiteSpace s = true.
Proof.
  induction s as [| c s IH]; simpl.
  - tauto.
  - destruct (Str.isWhiteSpace c); simpl; auto. split; discriminate.
Qed.

Lemma trimStart_idem (s : jsstring) :
  Str.trimStart (Str.trimStart s) = Str.trimStart s.
Proof.
  induction s as [| c s IH]; simpl; auto.
  destruct (Str.isWhiteSpace c) eqn:Hc; auto.
  simpl. rewrite Hc. auto.
Qed.

Lemma forallb_rev_eq (p : N -> bool) (s : jsstring) :
  forallb p (rev s) = forallb p s.
Proof.
  induction s as [| c s IH]; simpl; auto.
  rewrite forallb_app, IH. simpl. rewrite andb_true_r. apply andb_comm.
Qed.

Lemma trim_nil (s : jsstring) :
  Str.trim s = [] <-> forallb Str.isWhiteSpace s = true.
Proof.
  unfold Str.trim, Str.trimEnd.
  rewrite <- trimStart_nil.
  split.
  - intros H.
    assert (H' : Str.trimStart (rev (Str.trimStart s)) = []).
    { destruct (Str.trimStart (rev (Str.trimStart s))); auto.
      simpl in H. destruct (rev l); discriminate. }
    apply trimStart_nil in H'. rewrite forallb_rev_eq in H'.
    apply trimStart_nil in H'. rewrite trimStart_idem in H'. auto.
  - intros ->. reflexivity.
Qed.

Lemma isCorrectEmail_string (s : jsstring) :
  isCorrectEmail (VStr s) =
  Normal (negb (forallb Str.isWhiteSpace s) && Regex.test emailReg s).
Proof.
  unfold isCorrectEmail, isBlank. simpl.
  destruct s as [| c s]; [reflexivity |].
  simpl negb at 1. cbv iota.
  destruct (forallb Str.isWhiteSpace (c :: s)) eqn:Hws.
  - apply trim_nil in Hws. rewrite Hws. reflexivity.
  - destruct (Str.trim (c :: s)) eqn:Ht.
    + apply trim_nil in Ht. congruence.
    + reflexivity.
Qed.

Lemma EmailShaped_not_blank (s : jsstring) :
  EmailShaped s -> forallb Str.isWhiteSpace s = false.
Proof.
  intros (loc & dom & tld & -> & Hl1 & Hl2 & _).
  destruct loc as [| c loc]; [congruence |].
  simpl in *. apply andb_true_iff in Hl2 as [Hc _].
  assert (Hw : Str.isWhiteSpace c = false).
  { unfold isEmailChar, isAlpha, isDigit in Hc. unfold Str.isWhiteSpace.
    repeat rewrite ?orb_true_iff, ?andb_true_iff, ?N.leb_le, ?N.eqb_eq in Hc.
    repeat rewrite ?orb_false_iff, ?andb_false_iff, ?N.leb_gt, ?N.eqb_neq.
    lia. }
  rewrite Hw. reflexivity.
Qed.

(** C9: isCorrectEmail is false for the empty string, for an absent value,
    for every string of white space only and for every string that is not
    shaped like an address, and true for every string that is; it accepts
    a@b.co and a.b@c-d.com and rejects a@b. *)
Theorem isCorrectEmail_spec :
  isCorrectEmail (VStr []) = Normal false /\
  isCorrectEmail VUndef = Normal false /\
  (forall s, forallb Str.isWhiteSpace s = true ->
             isCorrectEmail (VStr s) = Normal false) /\
  (forall s, ~ EmailShaped s -> isCorrectEmail (VStr s) = Normal false) /\
  (forall s, EmailShaped s -> isCorrectEmail (VStr s) = Normal true) /\
  isCorrectEmail (VStr (js "a@b.co")) = Normal true /\
  isCorrectEmail (VStr (js "a@b")) = Normal false /\
  isCorrectEmail (VStr (js "a.b@c-d.com")) = Normal true.
Proof.
  repeat split; try reflexivity.
  - intros s Hs. rewrite isCorrectEmail_string, Hs. reflexivity.
  - intros s Hs. rewrite isCorrectEmail_string.
    destruct (Regex.test emailReg s) eqn:Ht.
    + apply emailReg_shaped in Ht. contradiction.
    + rewrite andb_false_r. reflexivity.
  - intros s Hs. rewrite isCorrectEmail_string.
    rewrite (EmailShaped_not_blank s Hs).
    apply emailReg_shaped in Hs. rewrite Hs. reflexivity.
Qed.

(** ** createPassword *)

Section RandomFacts.

Variable E : Env.
Hypothesis Hrandom : RandomInRange E.
Hypothesis Hmono : RoundingMonotone E.
Hypothesis Hexact : RoundingExact E.

Lemma getRandomIndex_range (max : Z) (w : World) :
  (0 <= max)%Z ->
  (0 <= fst (_getRandomIndex E max w) <= max)%Z.
Proof.
  intros Hmax. unfold _getRandomIndex. simpl.
  destruct (Hrandom (draws w)) as [Hlo Hhi].
  set (r := random E (draws w)) in *.
  assert (Hm : (0 <= inject_Z max)%Q).
  { change 0%Q with (inject_Z 0%Z). rewrite <- Zle_Qle. exact Hmax. }
  split.
  - rewrite <- (Qceiling_Z 0%Z). apply Qceiling_resp_le.
    apply Qle_trans with (fl E (inject_Z 0%Z)).
    + apply Qle_lteq. right. symmetry. apply Hexact.
    + apply Hmono. change (inject_Z 0%Z) with 0%Q.
      apply Qmult_le_0_compat; auto.
  - rewrite <- (Qceiling_Z max) at 2. apply Qceiling_resp_le.
    apply Qle_trans with (fl E (inject_Z max)).
    + apply Hmono.
      apply Qle_trans with (1 * inject_Z max)%Q.
      * apply Qmult_le_compat_r; auto. apply Qlt_le_weak; auto.
      * apply Qle_lteq. right. apply Qmult_1_l.
    + apply Qle_lteq. right. apply Hexact.
Qed.

Lemma charAt_in (source : jsstring) (index : Z) :
  (0 <= index <= Z.of_nat (length source) - 1)%Z ->
  exists c, charAt source index = [c] /\ In c source.
Proof.
  intros Hi. unfold charAt.
  destruct (index <? 0)%Z eqn:Hneg; [apply Z.ltb_lt in Hneg; lia |].
  destruct (source !! Z.to_nat index) as [c |] eqn:Hc.
  - exists c. split; auto.
    apply list_elem_of_In. eapply list_elem_of_lookup_2; eauto.
  - apply lookup_ge_None in Hc. lia.
Qed.

Lemma randomLoop_chosen (source : jsstring) (n : nat) :
  source <> [] ->
  forall result w,
  exists chosen,
    fst (randomLoop E source n result w) = result ++ chosen /\
    length chosen = n /\ Forall (fun c => In c source) chosen.
Proof.
  intros Hne. induction n as [| n IH]; intros result w; simpl.
  - exists []. rewrite app_nil_r. auto.
  - assert (Hlen : (0 <= Z.of_nat (length source) - 1)%Z).
    { destruct source; [congruence | simpl; lia]. }
    pose proof (getRandomIndex_range _ w Hlen) as Hr.
    unfold _getRandomIndex in Hr. simpl in Hr.
    destruct (charAt_in source _ Hr) as (c & Hc & Hin).
    match goal with
    | |- context [randomLoop E source n ?r ?w'] =>
        destruct (IH r w') as (rest & Heq & Hl & Hall)
    end.
    exists (c :: rest). rewrite Heq, Hc, <- app_assoc. simpl.
    repeat split; auto.
Qed.

Lemma getRandomString_chosen (source : jsstring) (n : nat) (w : World) :
  source <> [] ->
  length (fst (_getRandomString E source n w)) = n /\
  Forall (fun c => In c source) (fst (_getRandomString E source n w)).
Proof.
  intros Hne. unfold _getRandomString.
  destruct (randomLoop_chosen source n Hne [] w) as (chosen & -> & Hl & Hall).
  auto.
Qed.

End RandomFacts.

Lemma upperLetters_letters : map Str.upperUnit letters = upperLetters.
Proof. reflexivity. Qed.

(** C8: whatever the random source draws, createPassword returns nine
    characters: one of the specials, three digits, two upper-case letters and
    three lower-case letters, in this order, each taken from its pool. *)
Theorem createPassword_layout (E : Env) (w : World) :
  RandomInRange E -> RoundingMonotone E -> RoundingExact E ->
  exists sp dig upp low,
    fst (createPassword E w) = sp ++ dig ++ upp ++ low /\
    length (fst (createPassword E w)) = 9%nat /\
    length sp = 1%nat /\ Forall (fun c => In c specials) sp /\
    length dig = 3%nat /\ Forall (fun c => In c digits) dig /\
    length upp = 2%nat /\ Forall (fun c => In c upperLetters) upp /\
    length low = 3%nat /\ Forall (fun c => In c letters) low.
Proof.
  intros Hr Hm He. unfold createPassword.
  pose proof (getRandomString_chosen E Hr Hm He specials 1 w) as H1.
  destruct (_getRandomString E specials 1 w) as [sp w1].
  pose proof (getRandomString_chosen E Hr Hm He digits 3 w1) as H2.
  destruct (_getRandomString E digits 3 w1) as [dig w2].
  pose proof (getRandomString_chosen E Hr Hm He letters 2 w2) as H3.
  destruct (_getRandomString E letters 2 w2) as [upp w3].
  pose proof (getRandomString_chosen E Hr Hm He letters 3 w3) as H4.
  destruct (_getRandomString E letters 3 w3) as [low w4].
  cbn [fst] in *.
  destruct H1 as [L1 A1]; [discriminate |].
  destruct H2 as [L2 A2]; [discriminate |].
  destruct H3 as [L3 A3]; [discriminate |].
  destruct H4 as [L4 A4]; [discriminate |].
  exists sp, dig, (Str.toUpperCase upp), low.
  unfold Str.toUpperCase.
  repeat rewrite length_app. rewrite length_map, L1, L2, L3, L4.
  repeat split; auto.
  rewrite <- upperLetters_letters.
  apply List.Forall_forall. intros c Hc.
  apply in_map_iff in Hc as (c0 & <- & Hc0).
  apply in_map. rewrite List.Forall_forall in A3. auto.
Qed.

Lemma createPassword_layout_witness :
  exists sp dig upp low,
    fst (createPassword Demo.env emptyWorld) = sp ++ dig ++ upp ++ low /\
    length (fst (createPassword Demo.env emptyWorld)) = 9%nat /\
    length sp = 1%nat /\ Forall (fun c => In c specials) sp /\
    length dig = 3%nat /\ Forall (fun c => In c digits) dig /\
    length upp = 2%nat /\ Forall (fun c => In c upperLetters) upp /\
    length low = 3%nat /\ Forall (fun c => In c letters) low.
Proof.
  apply (createPassword_layout Demo.env emptyWorld).
  - intros n. simpl. unfold Qle, Qlt. simpl.
    pose proof (Nat.mod_upper_bound n 7). lia.
  - intros x y Hxy. exact Hxy.
  - intros z. simpl. reflexivity.
Defined.

(** ** Prefixes, replacements and splits *)

Section StringFacts.

Lemma stripPrefix_Some (p s t : jsstring) :
  Str.stripPrefix p s = Some t <-> s = p ++ t.
Proof.
  revert s. induction p as [| a p IH]; intros s; simpl.
  - split; [intros H; injection H as ->; reflexivity | intros ->; reflexivity].
  - destruct s as [| b s]; [split; discriminate |].
    destruct (N.eqb_spec a b) as [-> | Hne].
    + rewrite IH. split; [intros ->; reflexivity | intros H; injection H; auto].
    + split; [discriminate | intros H; injection H; congruence].
Qed.

Lemma startsWith_true (s p : jsstring) :
  Str.startsWith s p = true <-> exists t, s = p ++ t.
Proof.
  unfold Str.startsWith. destruct (Str.stripPrefix p s) as [t |] eqn:H.
  - apply stripPrefix_Some in H. split; eauto.
  - split; [discriminate |]. intros [t Ht].
    apply stripPrefix_Some in Ht. congruence.
Qed.

Lemma startsWith_app (p t : jsstring) : Str.startsWith (p ++ t) p = true.
Proof. apply startsWith_true. eauto. Qed.

Lemma startsWith_false (s p : jsstring) :
  (forall t, s <> p ++ t) -> Str.startsWith s p = false.
Proof.
  intros H. destruct (Str.startsWith s p) eqn:Hs; [| reflexivity].
  apply startsWith_true in Hs as [t Ht]. elim (H t Ht).
Qed.

Lemma replaceFrom_cons (p r : jsstring) (c : N) (s : jsstring) :
  Str.replaceFrom p r 0 (c :: s) =
  if Str.startsWith (c :: s) p
  then r ++ Str.replaceFrom p r (length p - 1) s
  else c :: Str.replaceFrom p r 0 s.
Proof. reflexivity. Qed.

Lemma splitFrom_cons (sep cur : jsstring) (c : N) (s : jsstring) :
  Str.splitFrom sep 0 cur (c :: s) =
  if Str.startsWith (c :: s) sep
  then rev cur :: Str.splitFrom sep (length sep - 1) [] s
  else Str.splitFrom sep 0 (c :: cur) s.
Proof. reflexivity. Qed.

Lemma join_cons (sep x y : jsstring) (l : list jsstring) :
  Str.join sep (x :: y :: l) = x ++ sep ++ Str.join sep (y :: l).
Proof. reflexivity. Qed.

Lemma plainName_noEq (n : jsstring) : plainName n = true -> noEq n.
Proof.
  unfold plainName, noEq. intros H. apply List.Forall_forall. intros c Hc.
  rewrite forallb_forall in H. specialize (H c Hc).
  apply andb_true_iff in H as [_ H]. apply negb_true_iff, N.eqb_neq in H. auto.
Qed.

Lemma plainName_noComma (n : jsstring) : plainName n = true -> noComma n.
Proof.
  unfold plainName, noComma. intros H. apply List.Forall_forall. intros c Hc.
  rewrite forallb_forall in H. specialize (H c Hc).
  apply andb_true_iff in H as [H _]. apply negb_true_iff, N.eqb_neq in H. auto.
Qed.

Section Replace.

(** A pattern of two characters and an equals sign. *)
Variables (a b : N) (r : jsstring).
Hypothesis Ha : a <> 61.
Hypothesis Hb : b <> 61.

(** Without an equals sign nothing matches. *)
Lemma replace_plain (s : jsstring) :
  noEq s -> Str.replaceFrom [a; b; 61] r 0 s = s.
Proof.
  induction s as [| c s IH]; intros Hs; [reflexivity |].
  rewrite replaceFrom_cons.
  rewrite startsWith_false.
  - f_equal. apply IH. inversion Hs; auto.
  - intros t Ht. simpl in Ht. rewrite Ht in Hs.
    unfold noEq in Hs. rewrite List.Forall_forall in Hs.
    apply (Hs 61); simpl; auto.
Qed.

(** A stretch without an equals sign is passed over up to the next
    label, which is replaced when it is the pattern. *)
Lemma replace_step (s1 : jsstring) (x y : N) (t : jsstring) :
  noEq s1 -> x <> 61 -> y <> 61 ->
  Str.replaceFrom [a; b; 61] r 0 (s1 ++ x :: y :: 61 :: t) =
  s1 ++ (if (a =? x) && (b =? y) then r else [x; y; 61])
     ++ Str.replaceFrom [a; b; 61] r 0 t.
Proof.
  intros Hs Hx Hy. induction s1 as [| c s1 IH].
  - cbn [app]. rewrite replaceFrom_cons.
    destruct (N.eqb_spec a x) as [-> | Hax];
      [destruct (N.eqb_spec b y) as [-> | Hby] |]; cbn [andb].
    + replace (Str.startsWith (x :: y :: 61 :: t) [x; y; 61]) with true
        by (symmetry; apply (startsWith_app [x; y; 61] t)).
      reflexivity.
    + rewrite startsWith_false.
      2: { intros t' Ht'. simpl in Ht'. congruence. }
      rewrite replaceFrom_cons, startsWith_false.
      2: { intros t' Ht'. simpl in Ht'. congruence. }
      rewrite replaceFrom_cons, startsWith_false.
      2: { intros t' Ht'. simpl in Ht'. congruence. }
      reflexivity.
    + rewrite startsWith_false.
      2: { intros t' Ht'. simpl in Ht'. congruence. }
      rewrite replaceFrom_cons, startsWith_false.
      2: { intros t' Ht'. simpl in Ht'. congruence. }
      rewrite replaceFrom_cons, startsWith_false.
      2: { intros t' Ht'. simpl in Ht'. congruence. }
      reflexivity.
  - cbn [app]. rewrite replaceFrom_cons.
    inversion Hs as [| ? ? Hc Hs1]; subst.
    rewrite startsWith_false.
    + f_equal. apply IH; auto.
    + intros t' Ht'. simpl in Ht'.
      destruct s1 as [| d s1]; simpl in Ht'; [congruence |].
      destruct s1 as [| e s1]; simpl in Ht'; [congruence |].
      unfold noEq in Hs1. rewrite List.Forall_forall in Hs1.
      apply (Hs1 61); [| reflexivity].
      injection Ht' as _ _ He _. subst e. simpl; auto.
Qed.

End Replace.

(** A stretch without a comma is passed over by a split on a separator
    that starts with a comma. *)
Lemma split_plain (sep' cur s1 rest : jsstring) :
  noComma s1 ->
  Str.splitFrom (44 :: sep') 0 cur (s1 ++ rest) =
  Str.splitFrom (44 :: sep') 0 (rev s1 ++ cur) rest.
Proof.
  revert cur. induction s1 as [| c s1 IH]; intros cur Hs; [reflexivity |].
  inversion Hs as [| ? ? Hc Hs1]; subst.
  cbn [app]. rewrite splitFrom_cons, startsWith_false.
  - rewrite IH; auto. cbn [rev]. rewrite <- app_assoc. reflexivity.
  - intros t Ht. simpl in Ht. congruence.
Qed.

End StringFacts.

(** ** Calls of the helpers *)

Lemma helper_run (E : Env) (call : Event) (w : World) :
  helper E call w = (helper_reply E (trace w ++ [call]), log call w).
Proof. reflexivity. Qed.

(** ** The cache key of findUser and of the deletions *)

Lemma findUser_hit (E : Env) (U : jsstring) (opts : jsval) (w : World)
    (cached : Record_) :
  cache_get U w = Some cached ->
  findUser E (VStr U) opts w =
  (Resolved (head (processResults E opts [cached])), w).
Proof.
  intros Hc. unfold findUser.
  replace (String_ (if truthy (VStr U) then VStr U else VStr [])) with U
    by (destruct U; reflexivity).
  rewrite Hc. reflexivity.
Qed.

Lemma findUser_miss (E : Env) (U : jsstring) (opts : jsval) (w : World) :
  cache_get U w = None ->
  findUser E (VStr U) opts w =
  let w1 := log (EvFind (userFilter (domain E) (lookupKey U))) w in
  match find_reply E (trace w1) with
  | Unsettled => (Unsettled, w1)
  | Rejected err => (Rejected err, w1)
  | Resolved None | Resolved (Some []) =>
      (Resolved (Some ∅), cache_set (lookupKey U) ∅ w1)
  | Resolved (Some (first :: rest)) =>
      (Resolved (head (processResults E opts (first :: rest))),
       cache_set (lookupKey U) first w1)
  end.
Proof.
  intros Hc. unfold findUser.
  replace (String_ (if truthy (VStr U) then VStr U else VStr [])) with U
    by (destruct U; reflexivity).
  rewrite Hc. reflexivity.
Qed.

Lemma includes_In (s : jsstring) (c : N) :
  Str.includes s [c] = true -> In c s.
Proof.
  induction s as [| d s IH]; simpl.
  - discriminate.
  - unfold Str.startsWith. simpl.
    destruct (N.eqb_spec c d) as [-> | Hne]; [auto |].
    simpl. auto.
Qed.

Lemma split_head_plain (c : N) (s : jsstring) :
  forall cur, Forall (fun d => d <> c) cur ->
  Forall (fun d => d <> c) (hd (js "undefined") (Str.splitFrom [c] 0 cur s)).
Proof.
  induction s as [| d s IH]; intros cur Hcur.
  - cbn. apply Forall_rev. exact Hcur.
  - rewrite splitFrom_cons. unfold Str.startsWith. simpl.
    destruct (N.eqb_spec c d) as [-> | Hne].
    + cbn. apply Forall_rev. exact Hcur.
    + apply IH. constructor; auto.
Qed.

(** A name with a domain suffix is never its own lookup key. *)
Lemma lookupKey_principal_name (U : jsstring) :
  Str.includes U (js "@") = true -> lookupKey U <> U.
Proof.
  intros Hat Heq. unfold lookupKey in Heq. rewrite Hat in Heq.
  change (js "@") with [64] in *.
  pose proof (split_head_plain 64 U [] (List.Forall_nil _)) as Hplain.
  unfold Str.split in Heq. rewrite Heq in Hplain.
  apply includes_In in Hat.
  rewrite List.Forall_forall in Hplain. apply (Hplain 64 Hat). reflexivity.
Qed.

Lemma lookupKey_bare (U : jsstring) :
  Str.includes U (js "@") = false -> lookupKey U = U.
Proof. intros H. unfold lookupKey. rewrite H. reflexivity. Qed.

(** For a bare name the second call of findUser answers from the cache: no
    call reaches the directory, and the record is the first match, shaped. *)
Lemma findUser_bare_cached (E : Env) (U : jsstring) (opts : jsval)
    (w : World) (first : Record_) (rest : list Record_) :
  Str.includes U (js "@") = false ->
  cache_get U w = None ->
  find_reply E (trace w ++ [EvFind (userFilter (domain E) U)])
    = Resolved (Some (first :: rest)) ->
  let w1 := snd (findUser E (VStr U) opts w) in
  fst (findUser E (VStr U) opts w)
    = Resolved (head (processResults E opts (first :: rest))) /\
  cache_get U w1 = Some first /\
  findUser E (VStr U) opts w1
    = (Resolved (head (processResults E opts [first])), w1).
Proof.
  intros Hbare Hmiss Hreply w1. subst w1.
  rewrite (findUser_miss E U opts w Hmiss), (lookupKey_bare U Hbare).
  cbv zeta. cbn [trace log]. rewrite Hreply. cbn [fst snd].
  assert (Hc : cache_get U
                 (cache_set U first (log (EvFind (userFilter (domain E) U)) w))
               = Some first).
  { unfold cache_get, cache_set. cbn [users]. apply lookup_insert_eq. }
  split; [reflexivity |]. split; [exact Hc |].
  apply findUser_hit. exact Hc.
Qed.

(** For a name with a domain suffix findUser stores under another key than
    it looks up: after the call there is still no entry under the name, so
    the next call queries the directory again. *)
Lemma findUser_principal_name_miss (E : Env) (U : jsstring) (opts : jsval)
    (w : World) :
  Str.includes U (js "@") = true ->
  cache_get U w = None ->
  let w1 := snd (findUser E (VStr U) opts w) in
  cache_get U w1 = None /\
  trace w1 = trace w ++ [EvFind (userFilter (domain E) (lookupKey U))].
Proof.
  intros Hat Hmiss w1. subst w1.
  rewrite (findUser_miss E U opts w Hmiss). cbv zeta.
  pose proof (lookupKey_principal_name U Hat) as Hne.
  destruct (find_reply E _) as [[[| first rest] |] | err |]; cbn [snd];
    unfold cache_get, cache_set, log in *; cbn [users trace];
    rewrite ?lookup_insert_ne by exact Hne; auto.
Qed.

(** moveUser on a name with a domain suffix leaves the entry that its own
    lookup has written. *)
Lemma moveUser_principal_name_entry_stays (E : Env) (U : jsstring)
    (location : jsval) (w : World) (first : Record_) (rest : list Record_) :
  Str.includes U (js "@") = true ->
  cache_get U w = None ->
  find_reply E (trace w ++ [EvFind (userFilter (domain E) (lookupKey U))])
    = Resolved (Some (first :: rest)) ->
  cache_get (lookupKey U) (snd (moveUser E (VStr U) location w)) = Some first.
Proof.
  intros Hat Hmiss Hreply.
  pose proof (lookupKey_principal_name U Hat) as Hne.
  unfold moveUser, mbind, M_bind.
  rewrite (findUser_miss E U VUndef w Hmiss). cbv zeta. cbn [trace log].
  rewrite Hreply.
  assert (Hc : forall t d,
            cache_get (lookupKey U)
              (mkWorld (<[lookupKey U := first]> (users w)) (objects w) t d)
            = Some first).
  { intros t d. unfold cache_get. cbn [users]. apply lookup_insert_eq. }
  destruct (head (processResults E VUndef (first :: rest))) as [u |];
    cbn [userObjectOf mret M_ret reject].
  - unfold _modifyDN. rewrite helper_run.
    destruct (helper_reply E _) as [v | e |]; cbn [snd];
      unfold cache_set, log, cache_delete; cbn [users objects trace draws snd];
      try apply Hc.
    unfold mret, M_ret, log, cache_get. cbn [snd users String_].
    rewrite lookup_delete_ne by congruence. apply lookup_insert_eq.
  - unfold cache_set, log. cbn [snd users objects trace draws]. apply Hc.
Qed.

(** moveUser does not test whether findUser has found a user: on the empty
    record it goes on to the rename, with an undefined old DN. *)
Lemma moveUser_no_existence_check (E : Env) (userName location : jsval)
    (w w1 : World) :
  findUser E userName VUndef w = (Resolved (Some ∅), w1) ->
  exists rest,
    trace (snd (moveUser E userName location w)) =
    trace w1
      ++ EvModifyDN VUndef
           (js "CN=undefined," ++ parseLocation E location
              ++ Str.replaceAll (js "dc=") (js "DC=") (String_ (baseDN E)))
      :: rest.
Proof.
  intros Hfind. unfold moveUser, mbind, M_bind. rewrite Hfind.
  cbn [userObjectOf mret M_ret]. unfold _modifyDN. rewrite helper_run.
  unfold prop. rewrite !lookup_empty. cbn [default String_].
  destruct (helper_reply E _) as [v | e |]; cbn [snd log trace cache_delete].
  - unfold mret, M_ret, log. cbn [snd trace].
    eexists. rewrite <- app_assoc. reflexivity.
  - exists []. reflexivity.
  - exists []. reflexivity.
Qed.

(** ** The defects, at concrete inputs *)

(** C2: findUser looks the cache up under the name as it was passed and
    stores under the name without its domain suffix.  For jane@corp.com the
    entry is written under jane, the second call misses again and queries
    the directory a second time. *)
Theorem findUser_principal_name_queries_again :
  let U := VStr (js "jane@corp.com") in
  let filter :=
    js "(|(userPrincipalName=jane@corp.com)(sAMAccountName=jane))" in
  let r1 := findUser Demo.env U VUndef emptyWorld in
  let r2 := findUser Demo.env U VUndef (snd r1) in
  fst r1 = Resolved (Some Demo.jane) /\
  users (snd r1) !! js "jane" = Some Demo.jane /\
  users (snd r1) !! js "jane@corp.com" = None /\
  trace (snd r1) = [EvFind filter] /\
  trace (snd r2) = [EvFind filter; EvFind filter].
Proof. vm_compute. repeat split; reflexivity. Qed.

(** C1: moveUser deletes the entry under the name as it was passed.  After
    moveUser on jane@corp.com the entry under jane, written by the lookup
    inside moveUser, is still there, and findUser on jane answers from it
    with the DN from before the move, without a query. *)
Theorem moveUser_principal_name_keeps_entry :
  let r1 := moveUser Demo.env (VStr (js "jane@corp.com")) (VStr (js "OU=HR"))
              emptyWorld in
  let r2 := findUser Demo.env (VStr (js "jane")) VUndef (snd r1) in
  fst r1 = Resolved (Obj {[js "success" := VBool true]}) /\
  last (trace (snd r1)) = Some (EvInvalidate (js "jane@corp.com")) /\
  In (EvModifyDN (VStr (js "CN=Jane,OU=Sales,OU=EMEA,DC=corp,DC=com"))
        (js "CN=Jane,OU=HR,DC=corp,DC=com")) (trace (snd r1)) /\
  users (snd r1) !! js "jane" = Some Demo.jane /\
  fst r2 = Resolved (Some Demo.jane) /\
  trace (snd r2) = trace (snd r1) /\
  find_reply Demo.env
    (trace (snd r1) ++ [EvFind (userFilter (domain Demo.env) (js "jane"))])
    = Resolved (Some [Demo.janeAt (js "CN=Jane,OU=HR,DC=corp,DC=com")]).
Proof. vm_compute. repeat split; try reflexivity. auto. Qed.

(** C3: moveUser does not test the record that findUser returns.  For a user
    that the directory does not hold, it calls the rename with an undefined
    old DN, and the promise ends as the rename does. *)
Theorem moveUser_missing_user_renames :
  let r := moveUser Demo.envStrict (VStr (js "ghost")) (VStr (js "OU=HR"))
             emptyWorld in
  filter isWrite (trace (snd r))
    = [EvModifyDN VUndef (js "CN=undefined,OU=HR,DC=corp,DC=com")] /\
  fst r = Rejected (Obj {[js "message" := VStr (js "DN is not a string")]}) /\
  fst r <> Rejected userDoesNotExist.
Proof. vm_compute. repeat split; try reflexivity. discriminate. Qed.

(** C4: addUser calls [reject] for a bad address or a missing account name
    and goes on: the object is created, the password set and the account
    enabled. *)
Theorem addUser_invalid_still_creates :
  let r := addUser Demo.env 0 None (Demo.withObject Demo.badMail) in
  let r' := addUser Demo.env 0 None (Demo.withObject Demo.noAccountName) in
  fst r = Rejected (Prim (VStr (js "Incorrect email address: bad"))) /\
  (exists obj pw,
     filter isDirectoryCall (trace (snd r)) =
     [EvAddObject (js "CN=jane") (js "CN=Users,") obj;
      EvReplace (VStr (js "jane")) (js "unicodePwd") pw;
      EvReplace (VStr (js "jane")) (js "userAccountControl") (VNum 512)]) /\
  fst r' = Rejected (Prim (VStr (js "sAMAccountName not specified"))) /\
  (exists obj pw,
     filter isDirectoryCall (trace (snd r')) =
     [EvAddObject (js "CN=undefined") (js "CN=Users,") obj;
      EvReplace VUndef (js "unicodePwd") pw;
      EvReplace VUndef (js "userAccountControl") (VNum 512)]).
Proof.
  vm_compute. repeat split; try reflexivity; eexists; eexists; reflexivity.
Qed.

(** ** authenticateUser *)

Lemma authenticateUser_run (E : Env) (userName pass : jsval) (w : World) :
  authenticateUser E userName pass w =
  let w' := log (EvAuthenticate
                   (String_ userName ++ js "@" ++ String_ (domain E)) pass) w in
  (match auth_reply E (trace w') with
   | None => Unsettled
   | Some (error, authorized) => authenticateCallback error authorized
   end, w').
Proof.
  unfold authenticateUser. cbv zeta.
  destruct (auth_reply E _) as [[error authorized] |]; reflexivity.
Qed.

(** C5: the annotation is lost on a boolean result.  When the client
    reports an error that carries a truthy lde_message and passes a boolean
    as the result, as it does for refused credentials, the assignments of
    [detail] and [message] to that boolean are dropped: authenticateUser
    resolves with the bare boolean, and neither an annotated result object
    nor a rejection reaches the caller. *)
Theorem authenticateUser_boolean_result_loses_detail
    (E : Env) (userName pass : jsval) (w : World) (err : Record_) (b : bool) :
  auth_reply E
    (trace w ++ [EvAuthenticate
                   (String_ userName ++ js "@" ++ String_ (domain E)) pass])
    = Some (Some err, AuthFlag b) ->
  truthy (prop err "lde_message") = true ->
  let out := fst (authenticateUser E userName pass w) in
  out = Resolved (AuthFlag b) /\
  (forall o, out <> Resolved (AuthObject o)) /\
  (forall e, out <> Rejected e).
Proof.
  intros Hreply Hlde out. subst out.
  rewrite authenticateUser_run. cbv zeta. cbn [fst log trace].
  rewrite Hreply. unfold authenticateCallback. rewrite Hlde.
  repeat split; intros; discriminate.
Qed.

Lemma authenticateUser_boolean_result_loses_detail_witness :
  let out := fst (authenticateUser Demo.env (VStr (js "jane"))
                    (VStr (js "pw")) emptyWorld) in
  out = Resolved (AuthFlag false) /\
  (forall o, out <> Resolved (AuthObject o)) /\
  (forall e, out <> Rejected e).
Proof.
  apply (authenticateUser_boolean_result_loses_detail Demo.env
           (VStr (js "jane")) (VStr (js "pw")) emptyWorld
           Demo.invalidCredentials false).
  - reflexivity.
  - reflexivity.
Defined.

(** All that authenticateUser does with the arguments of the callback: when
    the client reports an error that carries a truthy lde_message, it does
    not reject; with a result object it resolves with the object annotated
    with the detail and the message, with a boolean it resolves with the
    boolean as it is.  It rejects exactly when the error carries no truthy
    lde_message, with that error. *)
Lemma authenticateUser_folds_directory_errors
    (E : Env) (userName pass : jsval) (w : World)
    (error : option Record_) (authorized : AuthResult) :
  auth_reply E
    (trace w ++ [EvAuthenticate
                   (String_ userName ++ js "@" ++ String_ (domain E)) pass])
    = Some (error, authorized) ->
  let out := fst (authenticateUser E userName pass w) in
  (forall err, error = Some err -> truthy (prop err "lde_message") = true ->
     (forall e, out <> Rejected e) /\
     (forall o, authorized = AuthObject o ->
        out = Resolved
                (AuthObject
                   (<[js "message" :=
                        VStr (hd (js "undefined")
                                (Str.split (js ":") (String_ (prop err "stack"))))]>
                      (<[js "detail" := prop err "lde_message"]> o)))) /\
     (forall b, authorized = AuthFlag b -> out = Resolved (AuthFlag b))) /\
  (forall e, out = Rejected e <->
     exists err, error = Some err /\ e = Obj err /\
                 truthy (prop err "lde_message") = false) /\
  (error = None -> out = Resolved authorized).
Proof.
  intros Hreply out. subst out.
  rewrite authenticateUser_run. cbv zeta. cbn [fst log trace].
  rewrite Hreply. unfold authenticateCallback.
  split; [| split].
  - intros err -> Hlde. rewrite Hlde.
    repeat split.
    + intros e. destruct authorized; simpl; discriminate.
    + intros o ->. reflexivity.
    + intros b ->. reflexivity.
  - intros e. split.
    + destruct error as [err |].
      * destruct (truthy (prop err "lde_message")) eqn:Hlde.
        -- destruct authorized; simpl; discriminate.
        -- intros H. injection H as <-. eauto.
      * discriminate.
    + intros (err & -> & -> & Hlde). rewrite Hlde. reflexivity.
  - intros ->. reflexivity.
Qed.

Lemma authenticateUser_annotates_result_object :
  fst (authenticateUser (Demo.envWith Demo.helperOk Demo.authRefusedObject)
         (VStr (js "jane")) (VStr (js "pw")) emptyWorld)
  = Resolved
      (AuthObject
         (<[js "message" := VStr (js "InvalidCredentialsError")]>
            (<[js "detail" := VStr (js "80090308: LdapErr: DSID-0C09042A")]>
               {[js "authenticated" := VBool false]}))).
Proof.
  pose proof (authenticateUser_folds_directory_errors
                (Demo.envWith Demo.helperOk Demo.authRefusedObject)
                (VStr (js "jane")) (VStr (js "pw")) emptyWorld
                (Some Demo.invalidCredentials)
                (AuthObject {[js "authenticated" := VBool false]})
                eq_refl) as [H _].
  destruct (H Demo.invalidCredentials eq_refl eq_refl) as (_ & Ho & _).
  exact (Ho _ eq_refl).
Defined.

(** ** updateUser *)

Lemma writeCall_cons (t0 : list Event) (cur : jsval) (next : jsstring * jsval)
    (done : Options) (nx : jsstring * jsval) :
  writeCall t0 cur (next :: done) nx =
  writeCall
    (t0 ++ [EvReplace cur (fst next) (snd next);
            EvInvalidate (String_ (nextUserName cur next))])
    (nextUserName cur next) done nx.
Proof.
  unfold writeCall, userNameAfter. simpl. rewrite <- !app_assoc. reflexivity.
Qed.

(** What a run of [go] leaves in the trace: the writes of [done], each with
    its deletion, all resolved; then either the two final deletions, or the
    write that did not resolve and nothing after it. *)
Lemma go_run (E : Env) (userName : jsval) (pending : Options) :
  forall (cur : jsval) (w : World),
  let res := go E userName pending cur w in
  exists done rest,
    pending = done ++ rest /\
    (forall d1 next d2, done = d1 ++ next :: d2 ->
       isResolved (helper_reply E (writeCall (trace w) cur d1 next)) = true) /\
    match rest with
    | [] =>
        fst res = Resolved tt /\
        trace (snd res) =
          trace w ++ writesDone cur done
            ++ [EvInvalidate (String_ (userNameAfter cur done));
                EvInvalidate (String_ userName)]
    | next :: _ =>
        trace (snd res) = writeCall (trace w) cur done next /\
        match helper_reply E (trace (snd res)) with
        | Resolved _ => False
        | Rejected e => fst res = Rejected e
        | Unsettled => fst res = Unsettled
        end
    end.
Proof.
  induction pending as [| next pending IH]; intros cur w res; subst res.
  - exists [], []. split; [reflexivity |]. split.
    + intros d1 nx d2 H. destruct d1; discriminate.
    + simpl. split; [reflexivity |]. rewrite <- app_assoc. reflexivity.
  - cbn [go]. unfold mbind, M_bind, setUserProperty, _userReplaceOperation.
    rewrite helper_run.
    destruct (helper_reply E (trace w ++ [EvReplace cur (fst next) (snd next)]))
      as [v | e |] eqn:Hreply.
    + cbn [cache_delete log trace users objects draws].
      match goal with
      | |- context [go E userName pending ?c ?w1] =>
          set (w' := w1);
          assert (Hw' : trace w' =
                        (trace w ++ [EvReplace cur (fst next) (snd next)])
                          ++ [EvInvalidate (String_ c)]) by reflexivity;
          destruct (IH c w') as (done & rest & Hp & Hdone & Hrest)
      end.
      rewrite Hw' in Hdone, Hrest.
      exists (next :: done), rest. split; [rewrite Hp; reflexivity |]. split.
      * intros d1 nx d2 H. destruct d1 as [| n1 d1].
        -- injection H as <- _. unfold writeCall. simpl. rewrite Hreply.
           reflexivity.
        -- injection H as <- H. rewrite writeCall_cons.
           rewrite <- app_assoc in Hdone. apply (Hdone d1 nx d2 H).
      * destruct rest as [| nx rest'].
        -- destruct Hrest as [Hout Htr]. split; [exact Hout |].
           rewrite Htr. unfold userNameAfter. simpl.
           rewrite <- !app_assoc. reflexivity.
        -- destruct Hrest as [Htr Hout]. rewrite writeCall_cons.
           rewrite <- app_assoc in Htr. split; [exact Htr |]. exact Hout.
    + exists [], (next :: pending). split; [reflexivity |]. split.
      * intros d1 nx d2 H. destruct d1; discriminate.
      * cbn [snd fst log trace]. unfold writeCall. simpl.
        rewrite Hreply. auto.
    + exists [], (next :: pending). split; [reflexivity |]. split.
      * intros d1 nx d2 H. destruct d1; discriminate.
      * cbn [snd fst log trace]. unfold writeCall. simpl.
        rewrite Hreply. auto.
Qed.



(** ** addUser *)

Lemma randomLoop_frame (E : Env) (source : jsstring) (n : nat) :
  forall result w,
    users (snd (randomLoop E source n result w)) = users w /\
    objects (snd (randomLoop E source n result w)) = objects w /\
    trace (snd (randomLoop E source n result w)) = trace w.
Proof.
  induction n as [| n IH]; intros result w; simpl; auto.
  match goal with
  | |- context [randomLoop E source n ?r ?w'] => destruct (IH r w') as (Hu & Ho & Ht)
  end.
  rewrite Hu, Ho, Ht. auto.
Qed.

Lemma charAt_length (source : jsstring) (index : Z) :
  (1 <= length (charAt source index))%nat.
Proof.
  unfold charAt. destruct (index <? 0)%Z; [simpl; lia |].
  destruct (source !! Z.to_nat index); simpl; lia.
Qed.

Lemma randomLoop_length (E : Env) (source : jsstring) (n : nat) :
  forall result w,
    (length result + n <= length (fst (randomLoop E source n result w)))%nat.
Proof.
  induction n as [| n IH]; intros result w; simpl; [lia |].
  match goal with
  | |- context [randomLoop E source n (result ++ ?c) ?w'] =>
      pose proof (IH (result ++ c) w') as H;
      pose proof (charAt_length source
                    (Qceiling (fl E (random E (draws w)
                       * inject_Z (Z.of_nat (length source) - 1))))) as Hc
  end.
  rewrite length_app in H. lia.
Qed.

Lemma createPassword_frame (E : Env) (w : World) :
  users (snd (createPassword E w)) = users w /\
  objects (snd (createPassword E w)) = objects w /\
  trace (snd (createPassword E w)) = trace w.
Proof.
  unfold createPassword, _getRandomString.
  destruct (randomLoop_frame E specials 1 [] w) as (U1 & O1 & T1).
  destruct (randomLoop E specials 1 [] w) as [sp w1].
  destruct (randomLoop_frame E digits 3 [] w1) as (U2 & O2 & T2).
  destruct (randomLoop E digits 3 [] w1) as [dig w2].
  destruct (randomLoop_frame E letters 2 [] w2) as (U3 & O3 & T3).
  destruct (randomLoop E letters 2 [] w2) as [upp w3].
  destruct (randomLoop_frame E letters 3 [] w3) as (U4 & O4 & T4).
  destruct (randomLoop E letters 3 [] w3) as [low w4].
  cbn [fst snd] in *.
  rewrite U4, U3, U2, U1, O4, O3, O2, O1, T4, T3, T2, T1. auto.
Qed.

Lemma createPassword_truthy (E : Env) (w : World) :
  truthy (VStr (fst (createPassword E w))) = true.
Proof.
  unfold createPassword, _getRandomString.
  pose proof (randomLoop_length E specials 1 [] w) as H.
  destruct (randomLoop E specials 1 [] w) as [sp w1].
  destruct (randomLoop E digits 3 [] w1) as [dig w2].
  destruct (randomLoop E letters 2 [] w2) as [upp w3].
  destruct (randomLoop E letters 3 [] w3) as [low w4].
  cbn [fst] in *. destruct sp; [simpl in H; lia | reflexivity].
Qed.

(** The try block of addUser after the two checks. *)
Lemma addUser_create_run (E : Env) (userObject : nat)
    (userLocation : option jsstring) (w : World) (u : Record_) :
  objects w !! userObject = Some u ->
  let password := fst (createPassword E w) in
  let mutated :=
    <[js "objectClass" := userObjectClass]>
      (<[js "userPassword" := ssha_create E password]> u) in
  let res := addUser_create E userObject userLocation w in
  objects (snd res) !! userObject = Some mutated /\
  (exists rest,
     trace (snd res) =
     trace w ++ EvAddObject (js "CN=" ++ String_ (prop mutated "sAMAccountName"))
                  (normalizeLocation userLocation) mutated :: rest) /\
  (forall pw, fst res = Resolved pw -> pw = password) /\
  ((forall t, isResolved (helper_reply E t) = true) ->
   fst res = Resolved password).
Proof.
  intros Hu password mutated res. subst res.
  unfold addUser_create.
  pose proof (createPassword_frame E w) as (Hcu & Hco & Hct).
  pose proof (createPassword_truthy E w) as Hpw.
  fold password in Hpw.
  destruct (createPassword E w) as [pw w1]. cbn [fst snd] in *.
  subst password.
  unfold mbind, M_bind, mret, M_ret, setField, readObject.
  cbn [users objects trace draws].
  assert (Hl : alter (insert (js "objectClass") userObjectClass) userObject
           (alter (insert (js "userPassword") (ssha_create E pw)) userObject
              (objects w1))
         !! userObject = Some mutated).
  { rewrite !lookup_alter_eq, Hco, Hu. reflexivity. }
  rewrite Hl. fold userObjectClass. fold mutated.
  unfold _addObject. rewrite helper_run. cbn [trace log]. rewrite Hct.
  set (call := EvAddObject _ _ _).
  destruct (helper_reply E (trace w ++ [call])) as [v1 | e1 |] eqn:H1;
    cbn [snd fst objects trace log].
  2, 3: (rewrite Hl; repeat split;
         [exists []; reflexivity | discriminate
         | intros Hall; specialize (Hall (trace w ++ [call]));
           rewrite H1 in Hall; discriminate]).
  unfold setUserPassword. rewrite Hpw. cbn [negb].
  unfold _userReplaceOperation. rewrite helper_run. cbn [trace log].
  match goal with
  | |- context [helper_reply E ?t] =>
      destruct (helper_reply E t) as [v2 | e2 |] eqn:H2
  end; cbn [snd fst objects trace log].
  2, 3: (rewrite Hl; repeat split;
         [eexists; rewrite <- app_assoc; reflexivity | discriminate
         | intros Hall;
           match type of H2 with
           | helper_reply _ ?t = _ =>
               specialize (Hall t); rewrite H2 in Hall; discriminate
           end]).
  unfold enableUser, _userReplaceOperation. rewrite helper_run. cbn [trace log].
  match goal with
  | |- context [helper_reply E ?t] =>
      destruct (helper_reply E t) as [v3 | e3 |] eqn:H3
  end; cbn [snd fst objects trace log].
  2, 3: (rewrite Hl; repeat split;
         [eexists; rewrite <- !app_assoc; reflexivity | discriminate
         | intros Hall;
           match type of H3 with
           | helper_reply _ ?t = _ =>
               specialize (Hall t); rewrite H3 in Hall; discriminate
           end]).
  rewrite Hl. repeat split.
  - eexists. rewrite <- !app_assoc. reflexivity.
  - intros pw' H. injection H as <-. reflexivity.
Qed.

Lemma prop_mutated_sAMAccountName (u : Record_) (v1 v2 : jsval) :
  prop (<[js "objectClass" := v1]> (<[js "userPassword" := v2]> u))
    "sAMAccountName" = prop u "sAMAccountName".
Proof.
  unfold prop. rewrite !lookup_insert_ne; [reflexivity | |];
    intros H; vm_compute in H; discriminate.
Qed.

Lemma addUser_catch_settled {A : Type} (sAMAccountName : jsval)
    (err e : jsany) :
  @addUser_catch A sAMAccountName err (Rejected e) = Rejected e.
Proof.
  unfold addUser_catch. destruct (errMessage err); [| reflexivity].
  destruct (Str.includes _ _); reflexivity.
Qed.

(** When a check of addUser fails, [reject] is called and the try block
    goes on: the promise is rejected with the validation error, and the
    object is created all the same. *)
Lemma addUser_validation_does_not_stop (E : Env) (userObject : nat)
    (userLocation : option jsstring) (w : World) (u : Record_) (e : jsany) :
  objects w !! userObject = Some u ->
  @addUser_validate (nat * jsstring) u = (Rejected e, None) ->
  fst (addUser E userObject userLocation w) = Rejected e /\
  exists obj rest,
    trace (snd (addUser E userObject userLocation w)) =
    trace w ++ EvAddObject (js "CN=" ++ String_ (prop u "sAMAccountName"))
                 (normalizeLocation userLocation) obj :: rest.
Proof.
  intros Hu Hv. unfold addUser. rewrite Hu, Hv.
  destruct (addUser_create_run E userObject userLocation w u Hu)
    as (_ & (rest & Htr) & _ & _).
  rewrite prop_mutated_sAMAccountName in Htr.
  destruct (addUser_create E userObject userLocation w) as [[pw | e' |] w'];
    cbn [fst snd] in *.
  - split; [reflexivity | eauto].
  - split; [apply addUser_catch_settled | eauto].
  - split; [reflexivity | eauto].
Qed.

(** A call without a user object is rejected by the catch block with its
    second error, and nothing is called. *)
Lemma addUser_without_object (E : Env) (userObject : nat)
    (userLocation : option jsstring) (w : World) :
  objects w !! userObject = None ->
  addUser E userObject userLocation w
  = (Rejected (structuredError
                 (js "Error creating user: Cannot read properties of undefined")
                 503), w).
Proof. intros Hu. unfold addUser. rewrite Hu. reflexivity. Qed.

(** When the first check has rejected and the second throws, the rejection
    of the first stands, and nothing is called. *)
Lemma addUser_second_check_throws (E : Env) (userObject : nat)
    (userLocation : option jsstring) (w : World) (u : Record_) (e : jsany) :
  objects w !! userObject = Some u ->
  isCorrectEmail (prop u "mail") = Normal false ->
  isBlank (prop u "sAMAccountName") = Throw e ->
  addUser E userObject userLocation w
  = (Rejected (Prim (VStr (js "Incorrect email address: "
                             ++ String_ (prop u "mail")))), w).
Proof.
  intros Hu Hmail Hsam. unfold addUser. rewrite Hu.
  unfold addUser_validate. rewrite Hmail, Hsam. cbn [negb settle].
  rewrite addUser_catch_settled. reflexivity.
Qed.

(** C10: on a call that passes the two checks, addUser sets userPassword of
    the caller's object to the hash of the generated password and
    objectClass to the fixed list, in place; when the promise resolves, it
    resolves with the reference to that object and the generated password,
    and it does resolve when the helper calls all resolve. *)
Theorem addUser_mutates_userObject (E : Env) (userObject : nat)
    (userLocation : option jsstring) (w : World) (u : Record_) :
  objects w !! userObject = Some u ->
  isCorrectEmail (prop u "mail") = Normal true ->
  isBlank (prop u "sAMAccountName") = Normal false ->
  let password := fst (createPassword E w) in
  let res := addUser E userObject userLocation w in
  objects (snd res) !! userObject =
    Some (<[js "objectClass" := userObjectClass]>
            (<[js "userPassword" := ssha_create E password]> u)) /\
  (forall r, fst res = Resolved r -> r = (userObject, password)) /\
  ((forall t, isResolved (helper_reply E t) = true) ->
   fst res = Resolved (userObject, password)).
Proof.
  intros Hu Hmail Hsam password res. subst res.
  unfold addUser. rewrite Hu.
  unfold addUser_validate. rewrite Hmail, Hsam. cbn [negb].
  destruct (addUser_create_run E userObject userLocation w u Hu)
    as (Hobj & _ & Hres & Hall).
  fold password in Hobj, Hres, Hall.
  destruct (addUser_create E userObject userLocation w) as [[pw | e' |] w'];
    cbn [fst snd] in *.
  - rewrite (Hres pw eq_refl). repeat split; auto.
    intros r H. injection H as <-. reflexivity.
  - split; [exact Hobj |]. split.
    + intros r H. unfold addUser_catch in H.
      destruct (errMessage e'); [| discriminate].
      destruct (Str.includes _ _); discriminate.
    + intros Ht. specialize (Hall Ht). discriminate.
  - split; [exact Hobj |]. split.
    + intros r H. discriminate.
    + intros Ht. specialize (Hall Ht). discriminate.
Qed.

Lemma addUser_mutates_userObject_witness :
  let E := Demo.env in
  let w := Demo.withObject Demo.newUser in
  let password := fst (createPassword E w) in
  let res := addUser E 0 (Some (js "OU=Sales")) w in
  objects (snd res) !! 0%nat =
    Some (<[js "objectClass" := userObjectClass]>
            (<[js "userPassword" := ssha_create E password]> Demo.newUser)) /\
  fst res = Resolved (0%nat, password).
Proof.
  intros E w password res.
  destruct (addUser_mutates_userObject E 0 (Some (js "OU=Sales")) w
              Demo.newUser eq_refl eq_refl eq_refl) as (Hobj & _ & Hres).
  split; [exact Hobj |]. apply Hres. intros t. reflexivity.
Defined.

(** ** getUserLocation *)

Section DNFacts.

Lemma join_chain (first : jsstring) (chain : list RDN) (z : jsstring) :
  Str.join [44] (first :: map rdn chain ++ [z]) =
  first ++ chainText labUpper 44 chain ++ 44 :: z.
Proof.
  revert first. induction chain as [| c chain IH]; intros first.
  - reflexivity.
  - cbn [map app]. rewrite join_cons. rewrite (IH (rdn c)).
    unfold chainText. cbn [map concat].
    destruct c as [[|] n]; cbn; rewrite <- !app_assoc; reflexivity.
Qed.

Lemma dnOf_text (leaf : jsstring) (chain : list RDN) (base : jsstring) :
  dnOf leaf chain base = dnText (67, 78) leaf labUpper chain (68, 67) base.
Proof.
  unfold dnOf, dnText. change (js ",") with [44].
  rewrite join_chain. reflexivity.
Qed.

Lemma chainText_ext (lab lab' : RDNKind -> N * N) (sep : N)
    (chain : list RDN) :
  (forall k, lab k = lab' k) ->
  chainText lab sep chain = chainText lab' sep chain.
Proof.
  intros H. unfold chainText. f_equal. apply map_ext.
  intros c. rewrite H. reflexivity.
Qed.

Lemma chainText_cons (lab : RDNKind -> N * N) (sep : N) (c : RDN)
    (chain : list RDN) :
  chainText lab sep (c :: chain) =
  sep :: fst (lab (fst c)) :: snd (lab (fst c)) :: 61
    :: snd c ++ chainText lab sep chain.
Proof. reflexivity. Qed.

Lemma app_sep (s1 : jsstring) (sep : N) (rest : jsstring) :
  s1 ++ sep :: rest = (s1 ++ [sep]) ++ rest.
Proof. rewrite <- app_assoc. reflexivity. Qed.

Section Relabel.

Variables (a b a' b' : N).
Hypothesis Ha : a <> 61.
Hypothesis Hb : b <> 61.

Lemma replace_label (s1 : jsstring) (xy : N * N) (t : jsstring) :
  noEq s1 -> fst xy <> 61 -> snd xy <> 61 ->
  Str.replaceFrom [a; b; 61] [a'; b'; 61] 0
    (s1 ++ fst xy :: snd xy :: 61 :: t) =
  s1 ++ fst (relabel (a, b) (a', b') xy)
     :: snd (relabel (a, b) (a', b') xy) :: 61
     :: Str.replaceFrom [a; b; 61] [a'; b'; 61] 0 t.
Proof.
  intros Hs Hx Hy. rewrite replace_step; auto.
  unfold relabel. cbn [fst snd].
  destruct ((a =? fst xy) && (b =? snd xy)); reflexivity.
Qed.

Lemma replace_chain (lab : RDNKind -> N * N) (chain : list RDN) :
  (forall k, fst (lab k) <> 61 /\ snd (lab k) <> 61) ->
  Forall (fun c => noEq (snd c)) chain ->
  forall (s1 : jsstring) (xy : N * N) (t : jsstring),
  noEq s1 -> fst xy <> 61 -> snd xy <> 61 ->
  Str.replaceFrom [a; b; 61] [a'; b'; 61] 0
    (s1 ++ chainText lab 44 chain ++ 44 :: fst xy :: snd xy :: 61 :: t) =
  s1 ++ chainText (fun k => relabel (a, b) (a', b') (lab k)) 44 chain
     ++ 44 :: fst (relabel (a, b) (a', b') xy)
     :: snd (relabel (a, b) (a', b') xy) :: 61
     :: Str.replaceFrom [a; b; 61] [a'; b'; 61] 0 t.
Proof.
  intros Hlab Hchain. induction Hchain as [| c chain Hc _ IH];
    intros s1 xy t Hs Hx Hy;
    assert (Hs' : noEq (s1 ++ [44]))
      by (apply Forall_app; split;
          [exact Hs | repeat constructor; discriminate]).
  - cbn [chainText map concat app].
    rewrite app_sep, replace_label by auto.
    rewrite <- app_sep. reflexivity.
  - destruct (Hlab (fst c)) as [Hl1 Hl2].
    rewrite !chainText_cons. cbn [app].
    rewrite app_sep, replace_label by auto.
    rewrite <- (app_assoc (snd c)), IH by auto.
    rewrite <- app_sep, <- (app_assoc (snd c)). reflexivity.
Qed.

Lemma replace_dnText (l : N * N) (leaf : jsstring)
    (lab : RDNKind -> N * N) (chain : list RDN) (xy : N * N)
    (t : jsstring) :
  fst l <> 61 -> snd l <> 61 -> noEq leaf ->
  (forall k, fst (lab k) <> 61 /\ snd (lab k) <> 61) ->
  Forall (fun c => noEq (snd c)) chain ->
  fst xy <> 61 -> snd xy <> 61 ->
  Str.replaceAll [a; b; 61] [a'; b'; 61] (dnText l leaf lab chain xy t) =
  dnText (relabel (a, b) (a', b') l) leaf
    (fun k => relabel (a, b) (a', b') (lab k)) chain
    (relabel (a, b) (a', b') xy)
    (Str.replaceAll [a; b; 61] [a'; b'; 61] t).
Proof.
  intros Hl1 Hl2 Hleaf Hlab Hchain Hx Hy.
  unfold Str.replaceAll, dnText.
  pose proof (replace_label [] l
                (leaf ++ chainText lab 44 chain
                   ++ 44 :: fst xy :: snd xy :: 61 :: t)) as H.
  cbn [app] in H. rewrite H by (auto; constructor).
  rewrite replace_chain by auto. reflexivity.
Qed.

End Relabel.

Ltac label_side :=
  solve [ assumption
        | vm_compute; discriminate
        | intros [|]; split; vm_compute; discriminate ].

(** The three replacements that put the labels in lower case. *)
Lemma lower_dnOf (leaf : jsstring) (chain : list RDN) (base : jsstring) :
  noEq leaf -> Forall (fun c => noEq (snd c)) chain ->
  Str.replaceAll (js "OU=") (js "ou=")
    (Str.replaceAll (js "CN=") (js "cn=")
       (Str.replaceAll (js "DC=") (js "dc=") (dnOf leaf chain base))) =
  dnText (99, 110) leaf labLower chain (100, 99)
    (Str.replaceAll (js "OU=") (js "ou=")
       (Str.replaceAll (js "CN=") (js "cn=")
          (Str.replaceAll (js "DC=") (js "dc=") base))).
Proof.
  intros Hleaf Hchain. rewrite dnOf_text.
  change (js "DC=") with [68; 67; 61]. change (js "dc=") with [100; 99; 61].
  change (js "CN=") with [67; 78; 61]. change (js "cn=") with [99; 110; 61].
  change (js "OU=") with [79; 85; 61]. change (js "ou=") with [111; 117; 61].
  rewrite replace_dnText by label_side.
  rewrite replace_dnText by label_side.
  rewrite replace_dnText by label_side.
  unfold dnText.
  rewrite (chainText_ext _ labLower) by (intros [|]; reflexivity).
  reflexivity.
Qed.

(** Up to the first [,dc=]. *)
Lemma split_dc_chain (chain : list RDN) (t : jsstring) :
  Forall (fun c => noComma (snd c)) chain ->
  forall cur,
  hd (js "undefined")
    (Str.splitFrom [44; 100; 99; 61] 0 cur
       (chainText labLower 44 chain ++ 44 :: 100 :: 99 :: 61 :: t)) =
  rev cur ++ chainText labLower 44 chain.
Proof.
  intros Hchain. induction Hchain as [| c chain Hc _ IH]; intros cur.
  - cbn [chainText map concat app]. rewrite splitFrom_cons.
    replace (Str.startsWith (44 :: 100 :: 99 :: 61 :: t) [44; 100; 99; 61])
      with true by (symmetry; apply (startsWith_app [44; 100; 99; 61] t)).
    cbn [hd]. rewrite app_nil_r. reflexivity.
  - rewrite chainText_cons. cbn [app]. rewrite splitFrom_cons.
    rewrite startsWith_false.
    2: { intros t' Ht'. destruct c as [[|] n]; cbn in Ht'; discriminate. }
    set (l1 := fst (labLower (fst c))). set (l2 := snd (labLower (fst c))).
    replace (l1 :: l2 :: 61 :: (snd c ++ chainText labLower 44 chain)
               ++ 44 :: 100 :: 99 :: 61 :: t)
      with ((l1 :: l2 :: 61 :: snd c)
              ++ chainText labLower 44 chain ++ 44 :: 100 :: 99 :: 61 :: t)
      by (cbn [app]; rewrite <- app_assoc; reflexivity).
    rewrite split_plain.
    + rewrite IH. rewrite rev_app_distr, rev_involutive.
      cbn [rev app]. rewrite <- !app_assoc. reflexivity.
    + subst l1 l2. unfold noComma.
      destruct c as [[|] n]; repeat constructor; try discriminate; exact Hc.
Qed.

Lemma split_dc_dnText (leaf : jsstring) (chain : list RDN) (t : jsstring) :
  noComma leaf -> Forall (fun c => noComma (snd c)) chain ->
  hd (js "undefined")
    (Str.split (js ",dc=")
       (dnText (99, 110) leaf labLower chain (100, 99) t)) =
  99 :: 110 :: 61 :: leaf ++ chainText labLower 44 chain.
Proof.
  intros Hleaf Hchain. unfold Str.split, dnText. cbn [fst snd].
  change (js ",dc=") with [44; 100; 99; 61].
  replace (99 :: 110 :: 61 :: leaf ++ chainText labLower 44 chain
             ++ 44 :: 100 :: 99 :: 61 :: t)
    with ((99 :: 110 :: 61 :: leaf)
            ++ chainText labLower 44 chain ++ 44 :: 100 :: 99 :: 61 :: t)
    by reflexivity.
  rewrite split_plain.
  - rewrite split_dc_chain by auto.
    rewrite app_nil_r, rev_involutive. reflexivity.
  - repeat constructor; try discriminate. exact Hleaf.
Qed.

(** The components between the commas. *)
Lemma split_comma_chain (chain : list RDN) :
  Forall (fun c => noComma (snd c)) chain ->
  forall cur s1, noComma s1 ->
  Str.splitFrom [44] 0 cur (s1 ++ chainText labLower 44 chain) =
  (rev cur ++ s1) :: map lowRdn chain.
Proof.
  intros Hchain. induction Hchain as [| c chain Hc _ IH];
    intros cur s1 Hs; rewrite split_plain by auto.
  - cbn. rewrite rev_app_distr, rev_involutive. reflexivity.
  - rewrite chainText_cons, splitFrom_cons.
    replace (Str.startsWith _ [44]) with true
      by (symmetry; apply (startsWith_app [44])).
    cbn [length Nat.sub].
    rewrite rev_app_distr, rev_involutive. f_equal.
    set (l1 := fst (labLower (fst c))). set (l2 := snd (labLower (fst c))).
    replace (l1 :: l2 :: 61 :: snd c ++ chainText labLower 44 chain)
      with ((l1 :: l2 :: 61 :: snd c) ++ chainText labLower 44 chain)
      by reflexivity.
    rewrite IH; [reflexivity |].
    subst l1 l2. unfold noComma.
    destruct c as [[|] n]; repeat constructor; try discriminate; exact Hc.
Qed.

Lemma noEq_app (s t : jsstring) : noEq s -> noEq t -> noEq (s ++ t).
Proof. intros Hs Ht. apply Forall_app. split; assumption. Qed.

(** [cn=] becomes [!] in the joined components. *)
Lemma bang_join (l : list RDN) :
  Forall (fun c => noEq (snd c)) l ->
  forall s1, noEq s1 ->
  Str.replaceFrom [99; 110; 61] [33] 0 (s1 ++ Str.join [47] (map lowRdn l)) =
  s1 ++ Str.join [47] (map midRdn l).
Proof.
  intros Hl. induction Hl as [| c l Hc Hl IH]; intros s1 Hs.
  - cbn. rewrite app_nil_r. apply replace_plain; auto; discriminate.
  - destruct l as [| c' l'].
    + cbn [map Str.join]. unfold lowRdn.
      rewrite replace_step;
        [| discriminate | discriminate | assumption
         | destruct c as [[|] n]; discriminate
         | destruct c as [[|] n]; discriminate].
      rewrite replace_plain by (auto; discriminate).
      destruct c as [[|] n]; reflexivity.
    + cbn [map] in *. rewrite !join_cons. unfold lowRdn at 1.
      cbn [app].
      rewrite replace_step;
        [| discriminate | discriminate | assumption
         | destruct c as [[|] n]; discriminate
         | destruct c as [[|] n]; discriminate].
      rewrite (app_sep (snd c) 47), IH.
      * destruct c as [[|] n]; cbn; rewrite <- ?app_assoc; reflexivity.
      * apply noEq_app; auto. repeat constructor. discriminate.
Qed.

(** [ou=] goes from the joined components. *)
Lemma strip_join (l : list RDN) :
  Forall (fun c => noEq (snd c)) l ->
  forall s1, noEq s1 ->
  Str.replaceFrom [111; 117; 61] [] 0 (s1 ++ Str.join [47] (map midRdn l)) =
  s1 ++ Str.join [47] (map shown l).
Proof.
  intros Hl. induction Hl as [| c l Hc Hl IH]; intros s1 Hs.
  - cbn. rewrite app_nil_r. apply replace_plain; auto; discriminate.
  - assert (Hbang : noEq [33]) by (repeat constructor; discriminate).
    assert (Hslash : noEq [47]) by (repeat constructor; discriminate).
    destruct l as [| c' l'].
    + cbn [map Str.join]. destruct c as [[|] n]; unfold midRdn, shown;
        cbn [fst snd]; cbn [fst snd] in Hc.
      * change (js "ou=" ++ n) with (111 :: 117 :: 61 :: n).
        rewrite replace_step by (auto; discriminate).
        rewrite replace_plain by (auto; discriminate). reflexivity.
      * apply replace_plain; try discriminate.
        apply noEq_app; auto. apply noEq_app; auto.
    + cbn [map] in *. rewrite !join_cons.
      destruct c as [[|] n]; unfold midRdn at 1, shown at 1;
        cbn [fst snd]; cbn [fst snd] in Hc.
      * change (js "ou=") with [111; 117; 61]. cbn [app].
        rewrite replace_step by (auto; discriminate).
        rewrite (app_sep n 47), IH by (apply noEq_app; auto).
        cbn. rewrite <- ?app_assoc. reflexivity.
      * change (js "!") with [33]. cbn [app].
        rewrite (app_sep s1 33), (app_assoc _ n), (app_sep _ 47), IH.
        -- rewrite <- !app_assoc. reflexivity.
        -- repeat apply noEq_app; auto.
Qed.

(** The location of a DN of the shape of [dnOf]. *)
Lemma locationOfDN_dnOf (leaf : jsstring) (chain : list RDN)
    (base : jsstring) :
  plainName leaf = true ->
  forallb (fun c => plainName (snd c)) chain = true ->
  locationOfDN (VStr (dnOf leaf chain base)) = pathOf chain.
Proof.
  intros Hleaf Hchain.
  assert (Heq : Forall (fun c => noEq (snd c)) chain).
  { apply List.Forall_forall. intros c Hc. apply plainName_noEq.
    rewrite forallb_forall in Hchain. auto. }
  assert (Hco : Forall (fun c => noComma (snd c)) chain).
  { apply List.Forall_forall. intros c Hc. apply plainName_noComma.
    rewrite forallb_forall in Hchain. auto. }
  unfold locationOfDN. cbn [String_].
  rewrite lower_dnOf by auto using plainName_noEq.
  rewrite split_dc_dnText by auto using plainName_noComma.
  unfold Str.split. change (js ",") with [44].
  replace (99 :: 110 :: 61 :: leaf ++ chainText labLower 44 chain)
    with ((99 :: 110 :: 61 :: leaf) ++ chainText labLower 44 chain)
    by reflexivity.
  rewrite split_comma_chain; auto.
  2: { repeat constructor; try discriminate.
       apply plainName_noComma; auto. }
  cbn [tl]. rewrite <- map_rev.
  unfold Str.replaceAll, pathOf.
  change (js "/") with [47]. change (js "cn=") with [99; 110; 61].
  change (js "!") with [33]. change (js "ou=") with [111; 117; 61].
  assert (Hrev : Forall (fun c => noEq (snd c)) (rev chain)).
  { apply List.Forall_forall. intros c Hc. apply in_rev in Hc.
    rewrite List.Forall_forall in Heq. auto. }
  pose proof (bang_join (rev chain) Hrev [] (List.Forall_nil _)) as H1.
  pose proof (strip_join (rev chain) Hrev [] (List.Forall_nil _)) as H2.
  cbn [app] in H1, H2. rewrite H1, H2, map_rev. reflexivity.
Qed.

End DNFacts.

Lemma getUserLocation_found (E : Env) (userName : jsval) (w w' : World)
    (u : Record_) (dn : jsstring) :
  findUser E userName VUndef w = (Resolved (Some u), w') ->
  prop u "dn" = VStr dn ->
  getUserLocation E userName w = (Resolved (locationOfDN (VStr dn)), w').
Proof.
  intros Hfind Hdn. unfold getUserLocation, mbind, M_bind.
  rewrite Hfind. cbn [userObjectOf mret M_ret].
  destruct (decide (u = ∅)) as [-> | Hne].
  - unfold prop in Hdn. rewrite lookup_empty in Hdn. discriminate.
  - rewrite Hdn. reflexivity.
Qed.



(** * Further properties *)

(** ** normalizeLocation *)

Lemma endsWith_snoc (s : jsstring) (c : N) : Str.endsWith (s ++ [c]) [c] = true.
Proof.
  unfold Str.endsWith. rewrite rev_app_distr. cbn [rev app].
  apply (startsWith_app [c] (rev s)).
Qed.

Lemma endsWith_last (s : jsstring) (c : N) :
  Str.endsWith s [c] = true -> exists s', s = s' ++ [c].
Proof.
  unfold Str.endsWith. cbn [rev app]. intros Hs.
  apply startsWith_true in Hs as [t Ht]. exists (rev t).
  rewrite <- (rev_involutive s), Ht. reflexivity.
Qed.

Lemma normalizeLocation_fixed (s : jsstring) :
  Str.endsWith s (js ",") = true -> normalizeLocation (Some s) = s.
Proof.
  intros Hs. unfold normalizeLocation. rewrite Hs. cbn [negb].
  destruct (endsWith_last s 44 Hs) as [s' ->].
  destruct (Str.trim (s' ++ [44])) eqn:Ht.
  - apply trim_nil in Ht. rewrite forallb_app in Ht.
    apply andb_true_iff in Ht as [_ Ht]. discriminate.
  - destruct s'; reflexivity.
Qed.

(** The result of normalizeLocation always ends with a comma, and
    normalizeLocation leaves its own results as they are. *)
Theorem normalizeLocation_normal (userLocation : option jsstring) :
  Str.endsWith (normalizeLocation userLocation) (js ",") = true /\
  normalizeLocation (Some (normalizeLocation userLocation))
    = normalizeLocation userLocation.
Proof.
  assert (Hends : Str.endsWith (normalizeLocation userLocation) (js ",") = true).
  { unfold normalizeLocation. destruct userLocation as [s |]; [| reflexivity].
    destruct (negb (truthy (VStr s)) || Nat.eqb (length (Str.trim s)) 0);
      [reflexivity |].
    destruct (Str.endsWith s (js ",")) eqn:Hs; cbn [negb]; [exact Hs |].
    apply (endsWith_snoc s 44). }
  split; [exact Hends | apply normalizeLocation_fixed; exact Hends].
Qed.

(** ** Splitting and joining at a character *)

Lemma splitFrom_cons_sep (c : N) (cur s : jsstring) :
  Str.splitFrom [c] 0 cur (c :: s) = rev cur :: Str.splitFrom [c] 0 [] s.
Proof.
  rewrite splitFrom_cons.
  replace (Str.startsWith (c :: s) [c]) with true
    by (symmetry; apply (startsWith_app [c] s)).
  reflexivity.
Qed.

Lemma splitFrom_cons_other (c d : N) (cur s : jsstring) :
  d <> c ->
  Str.splitFrom [c] 0 cur (d :: s) = Str.splitFrom [c] 0 (d :: cur) s.
Proof.
  intros Hd. rewrite splitFrom_cons, startsWith_false; [reflexivity |].
  intros t Ht. simpl in Ht. congruence.
Qed.

Lemma splitFrom_not_nil (c : N) (s cur : jsstring) :
  Str.splitFrom [c] 0 cur s <> [].
Proof.
  revert cur. induction s as [| d s IH]; intros cur; [discriminate |].
  destruct (N.eq_dec d c) as [-> | Hd].
  - rewrite splitFrom_cons_sep. discriminate.
  - rewrite splitFrom_cons_other by exact Hd. apply IH.
Qed.

Lemma join_cons_not_nil (sep x : jsstring) (l : list jsstring) :
  l <> [] -> Str.join sep (x :: l) = x ++ sep ++ Str.join sep l.
Proof. destruct l; [congruence | reflexivity]. Qed.

(** Joining the pieces of a split gives the string back. *)
Lemma join_splitFrom (c : N) (s : jsstring) :
  forall cur, Str.join [c] (Str.splitFrom [c] 0 cur s) = rev cur ++ s.
Proof.
  induction s as [| d s IH]; intros cur.
  - cbn. rewrite app_nil_r. reflexivity.
  - destruct (N.eq_dec d c) as [-> | Hd].
    + rewrite splitFrom_cons_sep.
      rewrite join_cons_not_nil by apply splitFrom_not_nil.
      rewrite IH. reflexivity.
    + rewrite splitFrom_cons_other by exact Hd. rewrite IH.
      cbn [rev]. rewrite <- app_assoc. reflexivity.
Qed.

Lemma split_first (first rest : jsstring) :
  noComma first ->
  Str.split [44] (first ++ 44 :: rest) = first :: Str.split [44] rest.
Proof.
  intros Hf. unfold Str.split. rewrite split_plain by exact Hf.
  rewrite splitFrom_cons_sep, app_nil_r, rev_involutive. reflexivity.
Qed.

(** ** findUser *)

Lemma findUser_run (E : Env) (userName opts : jsval) (w : World) :
  findUser E userName opts w =
  match cache_get (rawName userName) w with
  | Some cached => (Resolved (head (processResults E opts [cached])), w)
  | None =>
      let key := lookupKey (rawName userName) in
      let w1 := log (EvFind (userFilter (domain E) key)) w in
      match find_reply E (trace w1) with
      | Unsettled => (Unsettled, w1)
      | Rejected err => (Rejected err, w1)
      | Resolved None | Resolved (Some []) =>
          (Resolved (Some ∅), cache_set key ∅ w1)
      | Resolved (Some (first :: rest)) =>
          (Resolved (head (processResults E opts (first :: rest))),
           cache_set key first w1)
      end
  end.
Proof. reflexivity. Qed.

(** findUser writes no entry but the one of the lookup key. *)
Lemma findUser_other_keys (E : Env) (userName opts : jsval) (w : World) :
  forall k, k <> lookupKey (rawName userName) ->
            users (snd (findUser E userName opts w)) !! k = users w !! k.
Proof.
  rewrite findUser_run.
  destruct (cache_get (rawName userName) w) as [cached |] eqn:Hc.
  - reflexivity.
  - cbv zeta.
    destruct (find_reply E _) as [[[| first rest] |] | err |];
      cbn [fst snd cache_set log users]; auto;
      intros k Hk; apply lookup_insert_ne; congruence.
Qed.

(** What findUser leaves alone: the caller's objects and the random source;
    the trace but for at most one find call; every cache entry but the one
    of the lookup key; the whole cache when the lookup does not resolve;
    and everything on a hit. *)
Theorem findUser_frame (E : Env) (userName opts : jsval) (w : World) :
  let key := lookupKey (rawName userName) in
  let res := findUser E userName opts w in
  objects (snd res) = objects w /\
  draws (snd res) = draws w /\
  (trace (snd res) = trace w \/
   trace (snd res) = trace w ++ [EvFind (userFilter (domain E) key)]) /\
  (forall k, k <> key -> users (snd res) !! k = users w !! k) /\
  (isResolved (fst res) = false -> users (snd res) = users w) /\
  (is_Some (cache_get (rawName userName) w) -> snd res = w).
Proof.
  intros key res. subst res. rewrite findUser_run.
  destruct (cache_get (rawName userName) w) as [cached |] eqn:Hc.
  - cbn [fst snd]. repeat split; auto; try discriminate.
  - cbv zeta. fold key.
    destruct (find_reply E _) as [[[| first rest] |] | err |];
      cbn [fst snd cache_set log users objects trace draws];
      repeat split; auto; try discriminate;
      try (intros k Hk; apply lookup_insert_ne; congruence);
      try (intros [x Hx]; discriminate).
Qed.

Lemma includes_plain (c : N) (s : jsstring) :
  Forall (fun d => d <> c) s -> Str.includes s [c] = false.
Proof.
  induction 1 as [| d s Hd _ IH]; [reflexivity |].
  cbn [Str.includes]. rewrite IH, startsWith_false; [reflexivity |].
  intros t Ht. simpl in Ht. congruence.
Qed.

(** The key under which findUser stores holds no [@]. *)
Lemma lookupKey_plain (U : jsstring) :
  Str.includes (lookupKey U) (js "@") = false.
Proof.
  unfold lookupKey. destruct (Str.includes U (js "@")) eqn:Hat; [| exact Hat].
  change (js "@") with [64]. apply includes_plain.
  apply (split_head_plain 64 U []). constructor.
Qed.

(** When the directory holds no such user, findUser resolves with the empty
    record and keeps it as the entry of the name; for a bare name every
    later call is answered from that entry, without a call of the
    directory. *)
Theorem findUser_not_found_cached (E : Env) (U : jsstring) (opts : jsval)
    (w : World) :
  Str.includes U (js "@") = false ->
  cache_get U w = None ->
  (find_reply E (trace w ++ [EvFind (userFilter (domain E) U)]) = Resolved None \/
   find_reply E (trace w ++ [EvFind (userFilter (domain E) U)])
     = Resolved (Some [])) ->
  let res := findUser E (VStr U) opts w in
  fst res = Resolved (Some ∅) /\
  cache_get U (snd res) = Some ∅ /\
  forall opts',
    findUser E (VStr U) opts' (snd res)
    = (Resolved (head (processResults E opts' [∅])), snd res).
Proof.
  intros Hbare Hmiss Hreply res. subst res.
  rewrite (findUser_miss E U opts w Hmiss), (lookupKey_bare U Hbare).
  cbv zeta. cbn [trace log].
  assert (Hc : cache_get U
                 (cache_set U ∅ (log (EvFind (userFilter (domain E) U)) w))
               = Some ∅).
  { unfold cache_get, cache_set. cbn [users]. apply lookup_insert_eq. }
  destruct Hreply as [-> | ->]; cbn [fst snd];
    (split; [reflexivity |]; split; [exact Hc |]);
    intros opts'; apply findUser_hit; exact Hc.
Qed.

Lemma findUser_not_found_cached_witness :
  let res := findUser Demo.env (VStr (js "ghost")) VUndef emptyWorld in
  fst res = Resolved (Some ∅) /\
  cache_get (js "ghost") (snd res) = Some ∅ /\
  forall opts',
    findUser Demo.env (VStr (js "ghost")) opts' (snd res)
    = (Resolved (head (processResults Demo.env opts' [∅])), snd res).
Proof.
  apply (findUser_not_found_cached Demo.env (js "ghost") VUndef emptyWorld).
  - reflexivity.
  - reflexivity.
  - right. reflexivity.
Defined.

(** ** getUserLocation on a user that the directory does not hold *)

(** getUserLocation rejects with the structured error for a missing user,
    after one find call and nothing else, and the empty record stays in the
    cache. *)
Theorem getUserLocation_unknown_user (E : Env) (U : jsstring) (w : World) :
  cache_get U w = None ->
  (find_reply E (trace w ++ [EvFind (userFilter (domain E) (lookupKey U))])
     = Resolved None \/
   find_reply E (trace w ++ [EvFind (userFilter (domain E) (lookupKey U))])
     = Resolved (Some [])) ->
  let res := getUserLocation E (VStr U) w in
  fst res = Rejected userDoesNotExist /\
  trace (snd res) = trace w ++ [EvFind (userFilter (domain E) (lookupKey U))] /\
  cache_get (lookupKey U) (snd res) = Some ∅.
Proof.
  intros Hmiss Hreply res. subst res.
  unfold getUserLocation, mbind, M_bind.
  rewrite (findUser_miss E U VUndef w Hmiss). cbv zeta. cbn [trace log].
  destruct Hreply as [-> | ->]; cbn [userObjectOf mret M_ret];
    (destruct (decide ((∅ : Record_) = ∅)) as [_ | Hne]; [| congruence]);
    cbn [fst snd reject cache_set log trace users];
    repeat split; unfold cache_get; cbn [users]; apply lookup_insert_eq.
Qed.

Lemma getUserLocation_unknown_user_witness :
  let res := getUserLocation Demo.env (VStr (js "ghost@corp.com")) emptyWorld in
  fst res = Rejected userDoesNotExist /\
  trace (snd res)
    = trace emptyWorld
        ++ [EvFind (userFilter (domain Demo.env) (lookupKey (js "ghost@corp.com")))] /\
  cache_get (lookupKey (js "ghost@corp.com")) (snd res) = Some ∅.
Proof.
  apply (getUserLocation_unknown_user Demo.env (js "ghost@corp.com") emptyWorld).
  - reflexivity.
  - right. reflexivity.
Defined.

(** ** The keys of the user cache *)

Lemma KeysFrom_refl (w : World) : KeysFrom w w.
Proof. intros k Hk. left. exact Hk. Qed.

Lemma KeysFrom_trans (w1 w2 w3 : World) :
  KeysFrom w1 w2 -> KeysFrom w2 w3 -> KeysFrom w1 w3.
Proof.
  intros H12 H23 k Hk. destruct (H23 k Hk) as [H2 | Hb]; [| right; exact Hb].
  apply H12. exact H2.
Qed.

Lemma KeysFrom_same_users (w w' : World) :
  users w' = users w -> KeysFrom w w'.
Proof. intros Hu k Hk. left. rewrite <- Hu. exact Hk. Qed.

Lemma Keeps_ret {A : Type} (a : A) : Keeps (mret a : M A).
Proof. intros w. apply KeysFrom_refl. Qed.

Lemma Keeps_reject {A : Type} (e : jsany) : Keeps (@reject A e).
Proof. intros w. apply KeysFrom_refl. Qed.

Lemma Keeps_bind {A B : Type} (m : M A) (f : A -> M B) :
  Keeps m -> (forall a, Keeps (f a)) -> Keeps (m ≫= f).
Proof.
  intros Hm Hf w. unfold mbind, M_bind.
  pose proof (Hm w) as H1. destruct (m w) as [[a | e |] w1]; cbn [snd] in *;
    try exact H1.
  eapply KeysFrom_trans; [exact H1 | apply Hf].
Qed.

Lemma Keeps_helper (E : Env) (call : Event) : Keeps (helper E call).
Proof. intros w. apply KeysFrom_same_users. reflexivity. Qed.

Lemma Keeps_cache_delete (key : jsval) : Keeps (cache_delete key).
Proof.
  intros w k [x Hx]. left. cbn in Hx.
  apply lookup_delete_Some in Hx as [_ Hx]. eauto.
Qed.

Lemma Keeps_findUser (E : Env) (userName opts : jsval) :
  Keeps (findUser E userName opts).
Proof.
  intros w k Hk.
  pose proof (findUser_other_keys E userName opts w) as Hother.
  destruct (decide (k = lookupKey (rawName userName))) as [-> | Hne].
  - right. apply lookupKey_plain.
  - left. rewrite <- (Hother k Hne). exact Hk.
Qed.

Lemma Keeps_userObjectOf (r : option Record_) : Keeps (userObjectOf r).
Proof. destruct r; [apply Keeps_ret | apply Keeps_reject]. Qed.

Lemma Keeps_setUserCN (E : Env) (userName cn : jsval) :
  Keeps (setUserCN E userName cn).
Proof.
  unfold setUserCN.
  repeat (apply Keeps_bind; [| intros ?]);
    auto using Keeps_findUser, Keeps_userObjectOf, Keeps_helper,
               Keeps_cache_delete, Keeps_ret.
  apply Keeps_helper.
Qed.

Lemma Keeps_moveUser (E : Env) (userName location : jsval) :
  Keeps (moveUser E userName location).
Proof.
  unfold moveUser.
  repeat (apply Keeps_bind; [| intros ?]);
    auto using Keeps_findUser, Keeps_userObjectOf, Keeps_helper,
               Keeps_cache_delete, Keeps_ret.
  apply Keeps_helper.
Qed.

Lemma Keeps_getUserLocation (E : Env) (userName : jsval) :
  Keeps (getUserLocation E userName).
Proof.
  unfold getUserLocation.
  apply Keeps_bind; [apply Keeps_findUser | intros r].
  apply Keeps_bind; [apply Keeps_userObjectOf | intros u].
  destruct (decide (u = ∅)); [apply Keeps_reject | apply Keeps_ret].
Qed.

Lemma Keeps_go (E : Env) (userName : jsval) (pending : Options) :
  forall cur, Keeps (go E userName pending cur).
Proof.
  induction pending as [| next pending IH]; intros cur; cbn [go].
  - repeat (apply Keeps_bind; [| intros ?]);
      auto using Keeps_cache_delete, Keeps_ret.
  - apply Keeps_bind; [apply Keeps_helper | intros _].
    apply Keeps_bind; [apply Keeps_cache_delete | intros _]. apply IH.
Qed.

Lemma Keeps_updateUser (E : Env) (userName : jsval) (opts : Options) :
  Keeps (updateUser E userName opts).
Proof.
  unfold updateUser. apply Keeps_bind; [| intros _; apply Keeps_go].
  unfold updateUser_first.
  apply Keeps_bind; [apply Keeps_findUser | intros _].
  apply Keeps_bind; [| intros _].
  - destruct (decide _); [apply Keeps_ret | apply Keeps_setUserCN].
  - apply Keeps_bind; [| intros _].
    + destruct (decide _); [apply Keeps_ret |].
      destruct (decide _); apply Keeps_helper.
    + destruct (decide _); [apply Keeps_ret |].
      destruct (decide _); apply Keeps_helper.
Qed.

(** No function of user.js that uses the cache puts a key with an [@] into
    it: when no key holds one before findUser, getUserLocation, setUserCN,
    moveUser or updateUser, none holds one after. *)
Theorem cache_keys_stay_bare (E : Env) (userName v : jsval) (opts : Options)
    (w : World) :
  CacheKeysBare w ->
  CacheKeysBare (snd (findUser E userName v w)) /\
  CacheKeysBare (snd (getUserLocation E userName w)) /\
  CacheKeysBare (snd (setUserCN E userName v w)) /\
  CacheKeysBare (snd (moveUser E userName v w)) /\
  CacheKeysBare (snd (updateUser E userName opts w)).
Proof.
  intros Hw.
  assert (Hkeep : forall w', KeysFrom w w' -> CacheKeysBare w').
  { intros w' Hf k Hk. destruct (Hf k Hk) as [Hin | Hb]; auto. }
  repeat split; apply Hkeep.
  - apply Keeps_findUser.
  - apply Keeps_getUserLocation.
  - apply Keeps_setUserCN.
  - apply Keeps_moveUser.
  - apply Keeps_updateUser.
Qed.

Lemma cache_keys_stay_bare_witness :
  CacheKeysBare (snd (findUser Demo.env (VStr (js "jane@corp.com")) VUndef emptyWorld)) /\
  CacheKeysBare (snd (getUserLocation Demo.env (VStr (js "jane@corp.com")) emptyWorld)) /\
  CacheKeysBare (snd (setUserCN Demo.env (VStr (js "jane@corp.com")) VUndef emptyWorld)) /\
  CacheKeysBare (snd (moveUser Demo.env (VStr (js "jane@corp.com")) VUndef emptyWorld)) /\
  CacheKeysBare
    (snd (updateUser Demo.env (VStr (js "jane@corp.com"))
            [(js "mail", VStr (js "j@x.io"))] emptyWorld)).
Proof.
  apply (cache_keys_stay_bare Demo.env (VStr (js "jane@corp.com")) VUndef
           [(js "mail", VStr (js "j@x.io"))] emptyWorld).
  intros k [x Hx]. cbn in Hx. rewrite lookup_empty in Hx. discriminate.
Defined.

(** ** setUserCN and moveUser *)

(** setUserCN renames to the DN of the user with its first component
    replaced by [CN=cn]: everything after the first comma stays. *)
Theorem setUserCN_keeps_parent (E : Env) (userName cn : jsval) (w w1 : World)
    (u : Record_) (first rest : jsstring) :
  findUser E userName VUndef w = (Resolved (Some u), w1) ->
  String_ (prop u "dn") = first ++ js "," ++ rest ->
  noComma first ->
  exists after,
    trace (snd (setUserCN E userName cn w)) =
    trace w1
      ++ EvModifyDN (prop u "dn") (js "CN=" ++ String_ cn ++ js "," ++ rest)
      :: after.
Proof.
  intros Hfind Hdn Hfirst.
  unfold setUserCN, mbind, M_bind. rewrite Hfind.
  cbn [userObjectOf mret M_ret]. unfold _modifyDN. rewrite helper_run.
  rewrite Hdn. change (js ",") with [44]. cbn [app].
  rewrite split_first by exact Hfirst. cbn [tl].
  rewrite join_cons_not_nil by apply splitFrom_not_nil.
  unfold Str.split. rewrite join_splitFrom. cbn [rev app].
  rewrite <- app_assoc.
  destruct (helper_reply E _) as [v | e |]; cbn [snd log trace cache_delete].
  - unfold mret, M_ret, log. cbn [snd trace].
    eexists. rewrite <- app_assoc. reflexivity.
  - exists []. reflexivity.
  - exists []. reflexivity.
Qed.

Lemma setUserCN_keeps_parent_witness :
  exists after,
    trace (snd (setUserCN Demo.env (VStr (js "jane")) (VStr (js "Jane Doe"))
                  emptyWorld)) =
    trace (snd (findUser Demo.env (VStr (js "jane")) VUndef emptyWorld))
      ++ EvModifyDN (prop Demo.jane "dn")
           (js "CN=" ++ String_ (VStr (js "Jane Doe")) ++ js ","
              ++ js "OU=Sales,OU=EMEA,DC=corp,DC=com")
      :: after.
Proof.
  apply (setUserCN_keeps_parent Demo.env (VStr (js "jane"))
           (VStr (js "Jane Doe")) emptyWorld
           (snd (findUser Demo.env (VStr (js "jane")) VUndef emptyWorld))
           Demo.jane (js "CN=Jane") (js "OU=Sales,OU=EMEA,DC=corp,DC=com")).
  - reflexivity.
  - reflexivity.
  - unfold noComma. repeat constructor; discriminate.
Defined.

(** The end of setUserCN and moveUser: after the rename, the entry of the
    name is deleted exactly when the rename has resolved. *)
Lemma rename_then_delete (E : Env) (userName oldDN : jsval) (newDN : jsstring)
    (w1 : World) :
  let res :=
    (_modifyDN E oldDN newDN ≫= fun result =>
     cache_delete userName ≫= fun _ => mret result) w1 in
  (isResolved (fst res) = true ->
   users (snd res) = delete (String_ userName) (users w1)) /\
  (isResolved (fst res) = false ->
   users (snd res) = users w1 /\
   fst res = helper_reply E (trace w1 ++ [EvModifyDN oldDN newDN])) /\
  objects (snd res) = objects w1.
Proof.
  unfold mbind, M_bind, _modifyDN. rewrite helper_run.
  destruct (helper_reply E _) as [v | e |]; cbn; repeat split; auto;
    discriminate.
Qed.

Lemma lookup_then (E : Env) (userName : jsval) (f : Record_ -> M jsany)
    (w : World) :
  (findUser E userName VUndef ≫= fun r => userObjectOf r ≫= f) w =
  match findUser E userName VUndef w with
  | (Resolved (Some u), w1) => f u w1
  | (Resolved None, w1) =>
      (Rejected (TypeError "Cannot read properties of undefined"), w1)
  | (Rejected e, w1) => (Rejected e, w1)
  | (Unsettled, w1) => (Unsettled, w1)
  end.
Proof.
  unfold mbind, M_bind.
  destruct (findUser E userName VUndef w) as [[[u |] | e |] w1]; try reflexivity.
Qed.

(** What follows the lookup in setUserCN and moveUser, for a rename to
    [newDN u]. *)
Lemma rename_invalidates (E : Env) (U : jsstring) (opts : jsval)
    (newDN : Record_ -> jsstring) (w : World) :
  let res :=
    (findUser E (VStr U) VUndef ≫= fun r => userObjectOf r ≫= fun userObject =>
     _modifyDN E (prop userObject "dn") (newDN userObject) ≫= fun result =>
     cache_delete (VStr U) ≫= fun _ => mret result) w in
  (isResolved (fst res) = true ->
   cache_get U (snd res) = None /\
   trace (snd (findUser E (VStr U) opts (snd res)))
   = trace (snd res) ++ [EvFind (userFilter (domain E) (lookupKey U))]) /\
  (isResolved (fst res) = false ->
   users (snd res) = users (snd (findUser E (VStr U) VUndef w))).
Proof.
  intros res. subst res. rewrite lookup_then.
  destruct (findUser E (VStr U) VUndef w) as [[[u |] | e |] w1]; cbn [snd fst];
    try (split; [discriminate | reflexivity]).
  pose proof (rename_then_delete E (VStr U) (prop u "dn") (newDN u) w1)
    as (Hok & Hfail & _).
  cbv zeta in Hok, Hfail.
  set (res := (_modifyDN E (prop u "dn") (newDN u) ≫= fun result =>
               cache_delete (VStr U) ≫= fun _ => mret result) w1) in *.
  split.
  - intros Hres. specialize (Hok Hres).
    assert (Hc : cache_get U (snd res) = None).
    { unfold cache_get. rewrite Hok. apply lookup_delete_eq. }
    split; [exact Hc |].
    rewrite (findUser_miss E U opts _ Hc). cbv zeta.
    destruct (find_reply E _) as [[[| first rest] |] | err |]; reflexivity.
  - intros Hres. apply Hfail. exact Hres.
Qed.

(** After moveUser has resolved, the cache holds no entry under the name as
    it was passed, so the next findUser on that name queries the
    directory. *)
Theorem moveUser_invalidates_on_success (E : Env) (U : jsstring)
    (location opts : jsval) (w : World) :
  let res := moveUser E (VStr U) location w in
  isResolved (fst res) = true ->
  cache_get U (snd res) = None /\
  trace (snd (findUser E (VStr U) opts (snd res)))
  = trace (snd res) ++ [EvFind (userFilter (domain E) (lookupKey U))].
Proof.
  apply (rename_invalidates E U opts
           (fun userObject =>
              js "CN=" ++ String_ (prop userObject "cn") ++ js ","
                ++ parseLocation E location
                ++ Str.replaceAll (js "dc=") (js "DC=") (String_ (baseDN E)))).
Qed.

Lemma moveUser_invalidates_on_success_witness :
  let res := moveUser Demo.env (VStr (js "jane")) (VStr (js "OU=Sales"))
               emptyWorld in
  cache_get (js "jane") (snd res) = None /\
  trace (snd (findUser Demo.env (VStr (js "jane")) VUndef (snd res)))
  = trace (snd res)
      ++ [EvFind (userFilter (domain Demo.env) (lookupKey (js "jane")))].
Proof.
  apply (moveUser_invalidates_on_success Demo.env (js "jane")
           (VStr (js "OU=Sales")) VUndef emptyWorld).
  reflexivity.
Defined.

(** When moveUser does not resolve, it deletes nothing: the cache is as the
    lookup left it, with the entry of the user still in it. *)
Theorem moveUser_failure_keeps_entry (E : Env) (U : jsstring)
    (location : jsval) (w : World) :
  let res := moveUser E (VStr U) location w in
  isResolved (fst res) = false ->
  users (snd res) = users (snd (findUser E (VStr U) VUndef w)).
Proof.
  apply (rename_invalidates E U VUndef
           (fun userObject =>
              js "CN=" ++ String_ (prop userObject "cn") ++ js ","
                ++ parseLocation E location
                ++ Str.replaceAll (js "dc=") (js "DC=") (String_ (baseDN E)))).
Qed.

Lemma moveUser_failure_keeps_entry_witness :
  let res := moveUser Scenario.envRefused (VStr (js "jane"))
               (VStr (js "OU=Sales")) emptyWorld in
  users (snd res)
  = users (snd (findUser Scenario.envRefused (VStr (js "jane")) VUndef
                  emptyWorld)).
Proof.
  apply (moveUser_failure_keeps_entry Scenario.envRefused (js "jane")
           (VStr (js "OU=Sales")) emptyWorld).
  reflexivity.
Defined.

(** After setUserCN has resolved, the cache holds no entry under the name as
    it was passed, so the next findUser on that name queries the
    directory. *)
Theorem setUserCN_invalidates_on_success (E : Env) (U : jsstring)
    (cn opts : jsval) (w : World) :
  let res := setUserCN E (VStr U) cn w in
  isResolved (fst res) = true ->
  cache_get U (snd res) = None /\
  trace (snd (findUser E (VStr U) opts (snd res)))
  = trace (snd res) ++ [EvFind (userFilter (domain E) (lookupKey U))].
Proof.
  apply (rename_invalidates E U opts
           (fun userObject =>
              Str.join (js ",")
                ((js "CN=" ++ String_ cn)
                   :: tl (Str.split (js ",") (String_ (prop userObject "dn")))))).
Qed.

Lemma setUserCN_invalidates_on_success_witness :
  let res := setUserCN Demo.env (VStr (js "jane")) (VStr (js "Jane Doe"))
               emptyWorld in
  cache_get (js "jane") (snd res) = None /\
  trace (snd (findUser Demo.env (VStr (js "jane")) VUndef (snd res)))
  = trace (snd res)
      ++ [EvFind (userFilter (domain Demo.env) (lookupKey (js "jane")))].
Proof.
  apply (setUserCN_invalidates_on_success Demo.env (js "jane")
           (VStr (js "Jane Doe")) VUndef emptyWorld).
  reflexivity.
Defined.

(** ** updateUser *)

Lemma go_cons_run (E : Env) (userName : jsval) (next : jsstring * jsval)
    (pending : Options) (cur : jsval) (w : World) :
  go E userName (next :: pending) cur w =
  let call := EvReplace cur (fst next) (snd next) in
  match helper_reply E (trace w ++ [call]) with
  | Resolved _ =>
      go E userName pending (nextUserName cur next)
        (snd (cache_delete (nextUserName cur next) (log call w)))
  | Rejected e => (Rejected e, log call w)
  | Unsettled => (Unsettled, log call w)
  end.
Proof.
  cbn [go]. unfold mbind, M_bind, setUserProperty, _userReplaceOperation.
  rewrite helper_run. cbv zeta.
  destruct (helper_reply E _) as [v | e |]; reflexivity.
Qed.

Lemma go_resolved_deletes (E : Env) (userName : jsval) (pending : Options) :
  forall cur w,
  isResolved (fst (go E userName pending cur w)) = true ->
  users (snd (go E userName pending cur w)) !! String_ userName = None.
Proof.
  induction pending as [| next pending IH]; intros cur w.
  - intros _. cbn. apply lookup_delete_eq.
  - rewrite go_cons_run. cbv zeta.
    destruct (helper_reply E _) as [v | e |]; try discriminate.
    apply IH.
Qed.

(** After updateUser has resolved, the cache holds no entry under the name
    as it was passed, so the next findUser on that name queries the
    directory. *)
Theorem updateUser_invalidates_on_success (E : Env) (U : jsstring)
    (updates : Options) (opts : jsval) (w : World) :
  let res := updateUser E (VStr U) updates w in
  isResolved (fst res) = true ->
  cache_get U (snd res) = None /\
  trace (snd (findUser E (VStr U) opts (snd res)))
  = trace (snd res) ++ [EvFind (userFilter (domain E) (lookupKey U))].
Proof.
  intros res Hres. subst res.
  assert (Hc : cache_get U (snd (updateUser E (VStr U) updates w)) = None).
  { assert (Hu : updateUser E (VStr U) updates w
                 = match updateUser_first E (VStr U) updates w with
                   | (Resolved _, w0) =>
                       go E (VStr U) (rev (operationsOf E updates)) (VStr U) w0
                   | (Rejected e, w0) => (Rejected e, w0)
                   | (Unsettled, w0) => (Unsettled, w0)
                   end).
    { unfold updateUser, mbind, M_bind.
      destruct (updateUser_first E (VStr U) updates w) as [[r | e |] w0];
        reflexivity. }
    rewrite Hu in Hres |- *.
    destruct (updateUser_first E (VStr U) updates w) as [[r | e |] w0];
      try discriminate.
    apply (go_resolved_deletes E (VStr U)). exact Hres. }
  split; [exact Hc |].
  rewrite (findUser_miss E U opts _ Hc). cbv zeta.
  destruct (find_reply E _) as [[[| first rest] |] | err |]; reflexivity.
Qed.

Lemma updateUser_invalidates_on_success_witness :
  let res := updateUser Demo.env (VStr (js "jane"))
               [(js "mail", VStr (js "j@x.io"))] emptyWorld in
  cache_get (js "jane") (snd res) = None /\
  trace (snd (findUser Demo.env (VStr (js "jane")) VUndef (snd res)))
  = trace (snd res)
      ++ [EvFind (userFilter (domain Demo.env) (lookupKey (js "jane")))].
Proof.
  apply (updateUser_invalidates_on_success Demo.env (js "jane")
           [(js "mail", VStr (js "j@x.io"))] VUndef emptyWorld).
  reflexivity.
Defined.

(** ** The errors of addUser *)

(** The try block of addUser after the two checks, by the outcomes of its
    three calls. *)
Lemma addUser_create_cases (E : Env) (userObject : nat)
    (userLocation : option jsstring) (w : World) (u : Record_) :
  objects w !! userObject = Some u ->
  let password := fst (createPassword E w) in
  let c1 := createCall E u userLocation password in
  let c2 := passwordCall E u password in
  let c3 := enableCall u in
  let res := addUser_create E userObject userLocation w in
  match helper_reply E (trace w ++ [c1]) with
  | Resolved _ =>
      match helper_reply E (trace w ++ [c1; c2]) with
      | Resolved _ =>
          trace (snd res) = trace w ++ [c1; c2; c3] /\
          fst res = match helper_reply E (trace w ++ [c1; c2; c3]) with
                    | Resolved _ => Resolved password
                    | Rejected e => Rejected e
                    | Unsettled => Unsettled
                    end
      | Rejected e => trace (snd res) = trace w ++ [c1; c2] /\ fst res = Rejected e
      | Unsettled => trace (snd res) = trace w ++ [c1; c2] /\ fst res = Unsettled
      end
  | Rejected e => trace (snd res) = trace w ++ [c1] /\ fst res = Rejected e
  | Unsettled => trace (snd res) = trace w ++ [c1] /\ fst res = Unsettled
  end.
Proof.
  intros Hu password c1 c2 c3 res. subst res c1 c2 c3.
  unfold createCall, passwordCall, enableCall, createdObject.
  rewrite <- (prop_mutated_sAMAccountName u userObjectClass
                (ssha_create E password)).
  unfold addUser_create.
  pose proof (createPassword_frame E w) as (Hcu & Hco & Hct).
  pose proof (createPassword_truthy E w) as Hpw.
  fold password in Hpw.
  destruct (createPassword E w) as [pw w1]. cbn [fst snd] in *.
  subst password.
  unfold mbind, M_bind, mret, M_ret, setField, readObject.
  cbn [users objects trace draws].
  assert (Hl : alter (insert (js "objectClass") userObjectClass) userObject
           (alter (insert (js "userPassword") (ssha_create E pw)) userObject
              (objects w1))
         !! userObject
         = Some (<[js "objectClass" := userObjectClass]>
                   (<[js "userPassword" := ssha_create E pw]> u))).
  { rewrite !lookup_alter_eq, Hco, Hu. reflexivity. }
  rewrite Hl.
  unfold _addObject. rewrite helper_run. cbn [trace log]. rewrite Hct.
  destruct (helper_reply E (trace w ++ [_])) as [v1 | e1 |];
    cbn [snd fst trace log]; try (split; reflexivity).
  unfold setUserPassword. rewrite Hpw. cbn [negb].
  unfold _userReplaceOperation. rewrite helper_run. cbn [trace log].
  rewrite <- !app_assoc. cbn [app].
  destruct (helper_reply E (trace w ++ [_; _])) as [v2 | e2 |];
    cbn [snd fst trace log]; rewrite <- ?app_assoc; cbn [app];
    try (split; reflexivity).
  unfold enableUser, _userReplaceOperation. rewrite helper_run. cbn [trace log].
  rewrite <- !app_assoc. cbn [app].
  destruct (helper_reply E (trace w ++ [_; _; _])) as [v3 | e3 |];
    cbn [snd fst trace log]; rewrite <- ?app_assoc; cbn [app];
    split; reflexivity.
Qed.

Lemma addUser_valid (u : Record_) :
  isCorrectEmail (prop u "mail") = Normal true ->
  isBlank (prop u "sAMAccountName") = Normal false ->
  @addUser_validate (nat * jsstring) u = (Unsettled, None).
Proof.
  intros Hmail Hsam. unfold addUser_validate. rewrite Hmail, Hsam. reflexivity.
Qed.

(** On a call that passes the two checks, when the creation of the object
    is rejected with an error object, addUser issues no further call and
    rejects with a structured error: status 400 and "already exists" when
    the message of the error holds ENTRY_EXISTS, status 503 and the message
    otherwise. *)
Theorem addUser_create_rejected (E : Env) (userObject : nat)
    (userLocation : option jsstring) (w : World) (u err : Record_) :
  objects w !! userObject = Some u ->
  isCorrectEmail (prop u "mail") = Normal true ->
  isBlank (prop u "sAMAccountName") = Normal false ->
  let password := fst (createPassword E w) in
  helper_reply E (trace w ++ [createCall E u userLocation password])
    = Rejected (Obj err) ->
  let res := addUser E userObject userLocation w in
  fst res = Rejected (creationError u err) /\
  trace (snd res) = trace w ++ [createCall E u userLocation password].
Proof.
  intros Hu Hmail Hsam password Hreply res. subst res.
  unfold addUser. rewrite Hu, (addUser_valid u Hmail Hsam).
  pose proof (addUser_create_cases E userObject userLocation w u Hu) as Hc.
  cbv zeta in Hc. fold password in Hc. rewrite Hreply in Hc.
  destruct Hc as [Htr Hout].
  destruct (addUser_create E userObject userLocation w) as [o w'].
  cbn [fst snd] in *. subst o. split; [| exact Htr].
  unfold addUser_catch, creationError. cbn [errMessage].
  destruct (Str.includes _ _); reflexivity.
Qed.

Lemma addUser_create_rejected_witness :
  let E := Scenario.envExists in
  let w := Demo.withObject Demo.newUser in
  let err : Record_ := {[js "message" := VStr (js "ENTRY_EXISTS: 00002071")]} in
  let password := fst (createPassword E w) in
  let res := addUser E 0 None w in
  (fst res = Rejected (creationError Demo.newUser err) /\
   trace (snd res) = trace w ++ [createCall E Demo.newUser None password]) /\
  creationError Demo.newUser err
    = structuredError (js "User joe already exists.") 400.
Proof.
  split.
  - apply (addUser_create_rejected Scenario.envExists 0 None
             (Demo.withObject Demo.newUser) Demo.newUser
             {[js "message" := VStr (js "ENTRY_EXISTS: 00002071")]});
      reflexivity.
  - vm_compute. reflexivity.
Defined.

(** There is no rollback: on a call that passes the two checks, when the
    object has been created and the write of the password is rejected with
    an error object, addUser rejects with the structured error of that
    error, the object stays created and the account is never enabled. *)
Theorem addUser_password_rejected (E : Env) (userObject : nat)
    (userLocation : option jsstring) (w : World) (u err : Record_) :
  objects w !! userObject = Some u ->
  isCorrectEmail (prop u "mail") = Normal true ->
  isBlank (prop u "sAMAccountName") = Normal false ->
  let password := fst (createPassword E w) in
  let c1 := createCall E u userLocation password in
  let c2 := passwordCall E u password in
  isResolved (helper_reply E (trace w ++ [c1])) = true ->
  helper_reply E (trace w ++ [c1; c2]) = Rejected (Obj err) ->
  let res := addUser E userObject userLocation w in
  fst res = Rejected (creationError u err) /\
  trace (snd res) = trace w ++ [c1; c2].
Proof.
  intros Hu Hmail Hsam password c1 c2 Hr1 Hr2 res. subst res.
  unfold addUser. rewrite Hu, (addUser_valid u Hmail Hsam).
  pose proof (addUser_create_cases E userObject userLocation w u Hu) as Hc.
  cbv zeta in Hc. fold password c1 c2 in Hc.
  destruct (helper_reply E (trace w ++ [c1])) as [v1 | e1 |];
    try discriminate.
  rewrite Hr2 in Hc. destruct Hc as [Htr Hout].
  destruct (addUser_create E userObject userLocation w) as [o w'].
  cbn [fst snd] in *. subst o. split; [| exact Htr].
  unfold addUser_catch, creationError. cbn [errMessage].
  destruct (Str.includes _ _); reflexivity.
Qed.

Lemma addUser_password_rejected_witness :
  let E := Scenario.envOf Demo.findJane
             (fun t => match last t with
                       | Some (EvReplace _ _ _) => Scenario.writesRefused t
                       | _ => Demo.helperOk t
                       end) in
  let w := Demo.withObject Demo.newUser in
  let err : Record_ := {[js "message" := VStr (js "INSUFFICIENT_ACCESS_RIGHTS")]} in
  let password := fst (createPassword E w) in
  let c1 := createCall E Demo.newUser (Some (js "OU=Sales")) password in
  let c2 := passwordCall E Demo.newUser password in
  let res := addUser E 0 (Some (js "OU=Sales")) w in
  (fst res = Rejected (creationError Demo.newUser err) /\
   trace (snd res) = trace w ++ [c1; c2]) /\
  creationError Demo.newUser err
    = structuredError (js "Error creating user: INSUFFICIENT_ACCESS_RIGHTS") 503.
Proof.
  split.
  - apply (addUser_password_rejected _ 0 (Some (js "OU=Sales"))
             (Demo.withObject Demo.newUser) Demo.newUser
             {[js "message" := VStr (js "INSUFFICIENT_ACCESS_RIGHTS")]});
      reflexivity.
  - vm_compute. reflexivity.
Defined.

(** On a call that passes the two checks, and whose three calls resolve,
    addUser issues exactly these calls, in this order: the creation of the
    object under [CN=sAMAccountName] at the normalized location, the write
    of the generated password, and the write that enables the account. *)
Theorem addUser_calls_in_order (E : Env) (userObject : nat)
    (userLocation : option jsstring) (w : World) (u : Record_) :
  objects w !! userObject = Some u ->
  isCorrectEmail (prop u "mail") = Normal true ->
  isBlank (prop u "sAMAccountName") = Normal false ->
  let password := fst (createPassword E w) in
  let c1 := createCall E u userLocation password in
  let c2 := passwordCall E u password in
  let c3 := enableCall u in
  isResolved (helper_reply E (trace w ++ [c1])) = true ->
  isResolved (helper_reply E (trace w ++ [c1; c2])) = true ->
  isResolved (helper_reply E (trace w ++ [c1; c2; c3])) = true ->
  let res := addUser E userObject userLocation w in
  fst res = Resolved (userObject, password) /\
  trace (snd res) = trace w ++ [c1; c2; c3].
Proof.
  intros Hu Hmail Hsam password c1 c2 c3 Hr1 Hr2 Hr3 res. subst res.
  unfold addUser. rewrite Hu, (addUser_valid u Hmail Hsam).
  pose proof (addUser_create_cases E userObject userLocation w u Hu) as Hc.
  cbv zeta in Hc. fold password c1 c2 c3 in Hc.
  destruct (helper_reply E (trace w ++ [c1])) as [v1 | e1 |];
    try discriminate.
  destruct (helper_reply E (trace w ++ [c1; c2])) as [v2 | e2 |];
    try discriminate.
  destruct (helper_reply E (trace w ++ [c1; c2; c3])) as [v3 | e3 |];
    try discriminate.
  destruct Hc as [Htr Hout].
  destruct (addUser_create E userObject userLocation w) as [o w'].
  cbn [fst snd] in *. subst o. split; [reflexivity | exact Htr].
Qed.

Lemma addUser_calls_in_order_witness :
  let E := Demo.env in
  let w := Demo.withObject Demo.newUser in
  let password := fst (createPassword E w) in
  let c1 := createCall E Demo.newUser None password in
  let c2 := passwordCall E Demo.newUser password in
  let c3 := enableCall Demo.newUser in
  let res := addUser E 0 None w in
  fst res = Resolved (0%nat, password) /\
  trace (snd res) = trace w ++ [c1; c2; c3].
Proof.
  apply (addUser_calls_in_order Demo.env 0 None
           (Demo.withObject Demo.newUser) Demo.newUser);
    reflexivity.
Defined.

(** ** createPassword and the random source *)

Lemma randomLoop_draws (E : Env) (source : jsstring) (n : nat) :
  forall result w,
    draws (snd (randomLoop E source n result w)) = (draws w + n)%nat.
Proof.
  induction n as [| n IH]; intros result w; simpl; [lia |].
  rewrite IH. simpl. lia.
Qed.

(** createPassword draws nine random numbers, and changes neither the
    cache, nor the caller's objects, nor the trace. *)
Theorem createPassword_draws_nine (E : Env) (w : World) :
  draws (snd (createPassword E w)) = (draws w + 9)%nat /\
  users (snd (createPassword E w)) = users w /\
  objects (snd (createPassword E w)) = objects w /\
  trace (snd (createPassword E w)) = trace w.
Proof.
  split; [| apply createPassword_frame].
  unfold createPassword, _getRandomString.
  pose proof (randomLoop_draws E specials 1 [] w) as H1.
  destruct (randomLoop E specials 1 [] w) as [sp w1].
  pose proof (randomLoop_draws E digits 3 [] w1) as H2.
  destruct (randomLoop E digits 3 [] w1) as [dig w2].
  pose proof (randomLoop_draws E letters 2 [] w2) as H3.
  destruct (randomLoop E letters 2 [] w2) as [upp w3].
  pose proof (randomLoop_draws E letters 3 [] w3) as H4.
  destruct (randomLoop E letters 3 [] w3) as [low w4].
  cbn [fst snd] in *. lia.
Qed.

Section PositiveDraws.

Variable E : Env.
Hypothesis Hrandom : RandomInRange E.
Hypothesis Hmono : RoundingMonotone E.
Hypothesis Hexact : RoundingExact E.
Hypothesis Hpositive : RandomPositive E.
Hypothesis Hrounding : RoundingPositive E.

Lemma getRandomIndex_positive (max : Z) (w : World) :
  (1 <= max)%Z -> (1 <= fst (_getRandomIndex E max w) <= max)%Z.
Proof.
  intros Hmax.
  pose proof (getRandomIndex_range E Hrandom Hmono Hexact max w) as Hr.
  split; [| apply Hr; lia].
  unfold _getRandomIndex. cbn [fst].
  set (x := fl E (random E (draws w) * inject_Z max)).
  assert (Hx : (0 < x)%Q).
  { apply Hrounding. apply Qmult_lt_0_compat; [apply Hpositive |].
    change 0%Q with (inject_Z 0%Z). rewrite <- Zlt_Qlt. lia. }
  assert (Hc : (inject_Z 0%Z < inject_Z (Qceiling x))%Q).
  { eapply Qlt_le_trans; [exact Hx | apply Qle_ceiling]. }
  rewrite <- Zlt_Qlt in Hc. lia.
Qed.

Lemma charAt_tail (source : jsstring) (index : Z) :
  (1 <= index <= Z.of_nat (length source) - 1)%Z ->
  exists c, charAt source index = [c] /\ In c (tl source).
Proof.
  intros Hi. unfold charAt.
  destruct (index <? 0)%Z eqn:Hneg; [apply Z.ltb_lt in Hneg; lia |].
  destruct (source !! Z.to_nat index) as [c |] eqn:Hc.
  - exists c. split; auto.
    destruct source as [| h t]; [discriminate |].
    destruct (Z.to_nat index) as [| k] eqn:Hk; [lia |].
    cbn in Hc. cbn [tl].
    apply list_elem_of_In. eapply list_elem_of_lookup_2; eauto.
  - apply lookup_ge_None in Hc. lia.
Qed.

Lemma randomLoop_tail (source : jsstring) (n : nat) :
  (2 <= length source)%nat ->
  forall result w,
  exists chosen,
    fst (randomLoop E source n result w) = result ++ chosen /\
    Forall (fun c => In c (tl source)) chosen.
Proof.
  intros Hlen. induction n as [| n IH]; intros result w; simpl.
  - exists []. rewrite app_nil_r. auto.
  - assert (Hmax : (1 <= Z.of_nat (length source) - 1)%Z) by lia.
    pose proof (getRandomIndex_positive _ w Hmax) as Hr.
    unfold _getRandomIndex in Hr. simpl in Hr.
    destruct (charAt_tail source _ Hr) as (c & Hc & Hin).
    match goal with
    | |- context [randomLoop E source n ?r ?w'] =>
        destruct (IH r w') as (rest & Heq & Hall)
    end.
    exists (c :: rest). rewrite Heq, Hc, <- app_assoc. simpl.
    split; auto.
Qed.

End PositiveDraws.

Lemma not_in_existsb (c : N) (l : jsstring) :
  existsb (N.eqb c) l = false -> ~ In c l.
Proof.
  intros Hf Hin.
  assert (Ht : existsb (N.eqb c) l = true).
  { apply existsb_exists. exists c. split; [exact Hin | apply N.eqb_refl]. }
  congruence.
Qed.

(** The first character of a pool is chosen only on a draw of zero: when no
    draw is zero, every character of the password comes from the rest of
    its pool, and the password holds neither [!] nor [0] nor [q] nor [Q]. *)
Theorem createPassword_skips_first (E : Env) (w : World) :
  RandomInRange E -> RoundingMonotone E -> RoundingExact E ->
  RandomPositive E -> RoundingPositive E ->
  Forall (fun c => In c (tl specials ++ tl digits ++ tl upperLetters
                           ++ tl letters))
    (fst (createPassword E w)) /\
  ~ In 33 (fst (createPassword E w)) /\
  ~ In 48 (fst (createPassword E w)) /\
  ~ In 113 (fst (createPassword E w)) /\
  ~ In 81 (fst (createPassword E w)).
Proof.
  intros Hr Hm He Hp Hf.
  assert (Hall : Forall (fun c => In c (tl specials ++ tl digits
                                          ++ tl upperLetters ++ tl letters))
                   (fst (createPassword E w))).
  { unfold createPassword, _getRandomString.
    destruct (randomLoop_tail E Hr Hm He Hp Hf specials 1
                ltac:(simpl; lia) [] w) as (sp' & H1 & A1).
    destruct (randomLoop E specials 1 [] w) as [sp w1].
    destruct (randomLoop_tail E Hr Hm He Hp Hf digits 3
                ltac:(simpl; lia) [] w1) as (dig' & H2 & A2).
    destruct (randomLoop E digits 3 [] w1) as [dig w2].
    destruct (randomLoop_tail E Hr Hm He Hp Hf letters 2
                ltac:(simpl; lia) [] w2) as (upp' & H3 & A3).
    destruct (randomLoop E letters 2 [] w2) as [upp w3].
    destruct (randomLoop_tail E Hr Hm He Hp Hf letters 3
                ltac:(simpl; lia) [] w3) as (low' & H4 & A4).
    destruct (randomLoop E letters 3 [] w3) as [low w4].
    cbn [fst app] in *. subst sp dig upp low.
    rewrite List.Forall_forall in A1, A2, A3, A4.
    apply List.Forall_forall. intros c Hc.
    rewrite !in_app_iff in Hc. rewrite !in_app_iff.
    destruct Hc as [Hc | [Hc | [Hc | Hc]]]; auto.
    unfold Str.toUpperCase in Hc. apply in_map_iff in Hc as (c0 & <- & Hc0).
    right. right. left.
    change (tl upperLetters) with (map Str.upperUnit (tl letters)).
    apply in_map. auto. }
  split; [exact Hall |].
  rewrite List.Forall_forall in Hall.
  repeat split; intros Hin; apply Hall in Hin; revert Hin;
    apply not_in_existsb; reflexivity.
Qed.

Lemma createPassword_skips_first_witness :
  Forall (fun c => In c (tl specials ++ tl digits ++ tl upperLetters
                           ++ tl letters))
    (fst (createPassword Scenario.envPositive emptyWorld)) /\
  ~ In 33 (fst (createPassword Scenario.envPositive emptyWorld)) /\
  ~ In 48 (fst (createPassword Scenario.envPositive emptyWorld)) /\
  ~ In 113 (fst (createPassword Scenario.envPositive emptyWorld)) /\
  ~ In 81 (fst (createPassword Scenario.envPositive emptyWorld)).
Proof.
  apply (createPassword_skips_first Scenario.envPositive emptyWorld).
  - intros n. simpl. unfold Qle, Qlt. simpl.
    pose proof (Nat.mod_upper_bound n 7). lia.
  - intros x y Hxy. exact Hxy.
  - intros z. simpl. reflexivity.
  - intros n. simpl. unfold Qlt. simpl. lia.
  - intros x Hx. exact Hx.
Defined.

(** ** removeUser *)

Lemma removeUser_run (E : Env) (H : Env2) (userName : jsval) (s : Session) :
  removeUser E H userName s =
  match findUser E userName VUndef (world s) with
  | (Resolved (Some userObject), w1) =>
      if decide (userObject = ∅)
      then (Rejected userDoesNotExist, mkSession w1 (calls s))
      else
        let c := calls s ++ [CallDeleteObjectByDN (prop userObject "dn")] in
        match delete_reply H (trace w1) c with
        | DeleteOk resp => (Resolved resp, mkSession w1 c)
        | DeleteErr err => (Rejected (flagError err), mkSession w1 c)
        | DeleteNever => (Unsettled, mkSession w1 c)
        end
  | (_, w1) => (Unsettled, mkSession w1 (calls s))
  end.
Proof.
  unfold removeUser, onWorld.
  destruct (findUser E userName VUndef (world s)) as [[[u |] | err |] w1];
    reflexivity.
Qed.

(** For a user that the directory does not hold, removeUser rejects with the
    structured error for a missing user and never calls the delete
    operation; the directory was asked once. *)
Theorem removeUser_unknown_user (E : Env) (H : Env2) (U : jsstring)
    (s : Session) :
  cache_get U (world s) = None ->
  (find_reply E (trace (world s)
                   ++ [EvFind (userFilter (domain E) (lookupKey U))])
     = Resolved None \/
   find_reply E (trace (world s)
                   ++ [EvFind (userFilter (domain E) (lookupKey U))])
     = Resolved (Some [])) ->
  let res := removeUser E H (VStr U) s in
  fst res = Rejected userDoesNotExist /\
  calls (snd res) = calls s /\
  trace (world (snd res))
    = trace (world s) ++ [EvFind (userFilter (domain E) (lookupKey U))].
Proof.
  intros Hmiss Hreply res. subst res.
  rewrite removeUser_run, (findUser_miss E U VUndef (world s) Hmiss).
  cbv zeta. cbn [trace log].
  destruct Hreply as [-> | ->];
    (destruct (decide ((∅ : Record_) = ∅)) as [_ | Hne]; [| congruence]);
    cbn [fst snd calls world cache_set log trace]; auto.
Qed.

Lemma removeUser_unknown_user_witness :
  let s := Scenario.emptySession in
  let res := removeUser Demo.env (Scenario.env2Of Scenario.deleteOk)
               (VStr (js "ghost")) s in
  fst res = Rejected userDoesNotExist /\
  calls (snd res) = calls s /\
  trace (world (snd res))
    = trace (world s)
        ++ [EvFind (userFilter (domain Demo.env) (lookupKey (js "ghost")))].
Proof.
  apply (removeUser_unknown_user Demo.env (Scenario.env2Of Scenario.deleteOk)
           (js "ghost") Scenario.emptySession).
  - reflexivity.
  - right. reflexivity.
Defined.

(** The chain of removeUser has no catch: when the lookup is rejected by
    the directory, the promise of removeUser is never settled, and the
    delete operation is not called. *)
Theorem removeUser_lookup_error_unsettled (E : Env) (H : Env2) (U : jsstring)
    (s : Session) (err : jsany) :
  cache_get U (world s) = None ->
  find_reply E (trace (world s)
                  ++ [EvFind (userFilter (domain E) (lookupKey U))])
    = Rejected err ->
  let res := removeUser E H (VStr U) s in
  fst res = Unsettled /\
  calls (snd res) = calls s /\
  users (world (snd res)) = users (world s).
Proof.
  intros Hmiss Hreply res. subst res.
  rewrite removeUser_run, (findUser_miss E U VUndef (world s) Hmiss).
  cbv zeta. cbn [trace log]. rewrite Hreply.
  cbn [fst snd calls world users]. auto.
Qed.

Lemma removeUser_lookup_error_unsettled_witness :
  let s := Scenario.emptySession in
  let res := removeUser Scenario.envDown (Scenario.env2Of Scenario.deleteOk)
               (VStr (js "jane")) s in
  fst res = Unsettled /\
  calls (snd res) = calls s /\
  users (world (snd res)) = users (world s).
Proof.
  apply (removeUser_lookup_error_unsettled Scenario.envDown
           (Scenario.env2Of Scenario.deleteOk) (js "jane")
           Scenario.emptySession Scenario.directoryDown).
  - reflexivity.
  - reflexivity.
Defined.

(** When the user is found, removeUser calls the delete operation once, on
    the dn of the shaped record.  It does not touch the cache: after a
    successful delete the record that the lookup stored is still the entry
    of the lookup key, and findUser on that key answers with it without a
    call of the directory. *)
Theorem removeUser_keeps_cache_entry (E : Env) (H : Env2) (U : jsstring)
    (s : Session) (first u : Record_) (rest : list Record_) (resp : jsany) :
  cache_get U (world s) = None ->
  find_reply E (trace (world s)
                  ++ [EvFind (userFilter (domain E) (lookupKey U))])
    = Resolved (Some (first :: rest)) ->
  head (processResults E VUndef (first :: rest)) = Some u ->
  u <> ∅ ->
  delete_reply H
    (trace (world s) ++ [EvFind (userFilter (domain E) (lookupKey U))])
    (calls s ++ [CallDeleteObjectByDN (prop u "dn")]) = DeleteOk resp ->
  let res := removeUser E H (VStr U) s in
  fst res = Resolved resp /\
  calls (snd res) = calls s ++ [CallDeleteObjectByDN (prop u "dn")] /\
  cache_get (lookupKey U) (world (snd res)) = Some first /\
  forall opts,
    findUser E (VStr (lookupKey U)) opts (world (snd res))
    = (Resolved (head (processResults E opts [first])), world (snd res)).
Proof.
  intros Hmiss Hreply Hu Hne Hdel res. subst res.
  rewrite removeUser_run, (findUser_miss E U VUndef (world s) Hmiss).
  cbv zeta. cbn [trace log]. rewrite Hreply, Hu.
  destruct (decide (u = ∅)) as [Hemp | _]; [contradiction |].
  cbn [trace cache_set log]. rewrite Hdel. cbn [fst snd calls world].
  assert (Hc : cache_get (lookupKey U)
                 (cache_set (lookupKey U) first
                    (log (EvFind (userFilter (domain E) (lookupKey U)))
                       (world s))) = Some first).
  { unfold cache_get, cache_set. cbn [users]. apply lookup_insert_eq. }
  repeat split; auto.
  intros opts. apply findUser_hit. exact Hc.
Qed.

Lemma removeUser_keeps_cache_entry_witness :
  let s := Scenario.emptySession in
  let res := removeUser Demo.env (Scenario.env2Of Scenario.deleteOk)
               (VStr (js "jane")) s in
  fst res = Resolved (Obj {[js "success" := VBool true]}) /\
  calls (snd res)
    = calls s ++ [CallDeleteObjectByDN (prop Demo.jane "dn")] /\
  cache_get (lookupKey (js "jane")) (world (snd res)) = Some Demo.jane /\
  forall opts,
    findUser Demo.env (VStr (lookupKey (js "jane"))) opts (world (snd res))
    = (Resolved (head (processResults Demo.env opts [Demo.jane])),
       world (snd res)).
Proof.
  apply (removeUser_keeps_cache_entry Demo.env
           (Scenario.env2Of Scenario.deleteOk) (js "jane")
           Scenario.emptySession Demo.jane Demo.jane []).
  - reflexivity.
  - reflexivity.
  - reflexivity.
  - intros Habs.
    assert (Hl : (Demo.jane : Record_) !! js "dn" = None)
      by (rewrite Habs; apply lookup_empty).
    vm_compute in Hl. discriminate Hl.
  - reflexivity.
Defined.

(** When the delete operation fails with an error object, removeUser
    rejects with that object, its [error] field set to true and every other
    field as it was. *)
Theorem removeUser_delete_error_flagged (E : Env) (H : Env2)
    (userName : jsval) (s : Session) (u : Record_) (w1 : World)
    (err : Record_) :
  findUser E userName VUndef (world s) = (Resolved (Some u), w1) ->
  u <> ∅ ->
  delete_reply H (trace w1) (calls s ++ [CallDeleteObjectByDN (prop u "dn")])
    = DeleteErr err ->
  exists r,
    fst (removeUser E H userName s) = Rejected (Obj r) /\
    r !! js "error" = Some (VBool true) /\
    (forall k, k <> js "error" -> r !! k = err !! k) /\
    snd (removeUser E H userName s)
      = mkSession w1 (calls s ++ [CallDeleteObjectByDN (prop u "dn")]).
Proof.
  intros Hfind Hne Hdel.
  exists (<[js "error" := VBool true]> err).
  rewrite removeUser_run, Hfind.
  destruct (decide (u = ∅)) as [Hemp | _]; [contradiction |].
  cbv zeta. rewrite Hdel. cbn [fst snd]. unfold flagError.
  repeat split.
  - apply lookup_insert_eq.
  - intros k Hk. apply lookup_insert_ne. congruence.
Qed.

Lemma removeUser_delete_error_flagged_witness :
  exists r,
    fst (removeUser Demo.env (Scenario.env2Of Scenario.deleteRefused)
           (VStr (js "jane")) Scenario.emptySession) = Rejected (Obj r) /\
    r !! js "error" = Some (VBool true) /\
    (forall k, k <> js "error" ->
       r !! k
       = ({[js "message" := VStr (js "INSUFFICIENT_ACCESS_RIGHTS")]}
            : Record_) !! k) /\
    snd (removeUser Demo.env (Scenario.env2Of Scenario.deleteRefused)
           (VStr (js "jane")) Scenario.emptySession)
      = mkSession
          (snd (findUser Demo.env (VStr (js "jane")) VUndef emptyWorld))
          (calls Scenario.emptySession
             ++ [CallDeleteObjectByDN (prop Demo.jane "dn")]).
Proof.
  apply (removeUser_delete_error_flagged Demo.env
           (Scenario.env2Of Scenario.deleteRefused) (VStr (js "jane"))
           Scenario.emptySession Demo.jane
           (snd (findUser Demo.env (VStr (js "jane")) VUndef emptyWorld))).
  - reflexivity.
  - intros Habs.
    assert (Hl : (Demo.jane : Record_) !! js "dn" = None)
      by (rewrite Habs; apply lookup_empty).
    vm_compute in Hl. discriminate Hl.
  - reflexivity.
Defined.

(** ** userIsMemberOf *)

Lemma filter_nonempty {A : Type} (f : A -> bool) (l : list A) :
  Nat.ltb 0 (length (List.filter f l)) = true <->
  exists x, In x l /\ f x = true.
Proof.
  induction l as [| a l IH]; simpl.
  - split; [discriminate | intros (x & [] & _)].
  - destruct (f a) eqn:Ha; simpl.
    + split; [intros _; exists a; auto | reflexivity].
    + rewrite IH. split.
      * intros (x & Hin & Hx). exists x. auto.
      * intros (x & [-> | Hin] & Hx); [congruence | exists x; auto].
Qed.

Lemma userIsMemberOf_run (E : Env) (H : Env2) (userName groupName : jsval)
    (s : Session) :
  userIsMemberOf E H userName groupName s =
  match findUser E userName VUndef (world s) with
  | (Resolved (Some userObject), w1) =>
      let c := calls s ++ [CallGetGroupUsers groupName] in
      match group_reply H (trace w1) c with
      | Resolved members =>
          (Resolved
             (Nat.ltb 0
                (length
                   (List.filter
                      (fun m => strictEq (prop m "dn") (prop userObject "dn"))
                      members))),
           mkSession w1 c)
      | Rejected err => (Rejected err, mkSession w1 c)
      | Unsettled => (Unsettled, mkSession w1 c)
      end
  | (Resolved None, w1) =>
      (Rejected (TypeError "Cannot read properties of undefined"),
       mkSession w1 (calls s))
  | (Rejected err, w1) => (Rejected err, mkSession w1 (calls s))
  | (Unsettled, w1) => (Unsettled, mkSession w1 (calls s))
  end.
Proof.
  unfold userIsMemberOf, onWorld, _getGroupUsers.
  destruct (findUser E userName VUndef (world s)) as [[[u |] | err |] w1];
    reflexivity.
Qed.

(** userIsMemberOf resolves, after one call for the members of the group,
    with true exactly when some member has a dn strictly equal to the dn of
    the record that the lookup gave. *)
Theorem userIsMemberOf_spec (E : Env) (H : Env2) (userName groupName : jsval)
    (s : Session) (u : Record_) (w1 : World) (members : list Record_) :
  findUser E userName VUndef (world s) = (Resolved (Some u), w1) ->
  group_reply H (trace w1) (calls s ++ [CallGetGroupUsers groupName])
    = Resolved members ->
  exists b,
    userIsMemberOf E H userName groupName s
    = (Resolved b, mkSession w1 (calls s ++ [CallGetGroupUsers groupName])) /\
    (b = true <->
     exists m, In m members /\ strictEq (prop m "dn") (prop u "dn") = true).
Proof.
  intros Hfind Hgroup.
  rewrite userIsMemberOf_run, Hfind. cbv zeta. rewrite Hgroup.
  eexists. split; [reflexivity |]. apply filter_nonempty.
Qed.

Lemma userIsMemberOf_spec_witness :
  exists b,
    userIsMemberOf Demo.env (Scenario.env2Of Scenario.deleteOk)
      (VStr (js "jane")) (VStr (js "Sales")) Scenario.emptySession
    = (Resolved b,
       mkSession
         (snd (findUser Demo.env (VStr (js "jane")) VUndef emptyWorld))
         (calls Scenario.emptySession
            ++ [CallGetGroupUsers (VStr (js "Sales"))])) /\
    (b = true <->
     exists m,
       In m [Demo.jane; {[js "cn" := VStr (js "orphan")]}] /\
       strictEq (prop m "dn") (prop Demo.jane "dn") = true).
Proof.
  apply (userIsMemberOf_spec Demo.env (Scenario.env2Of Scenario.deleteOk)
           (VStr (js "jane")) (VStr (js "Sales")) Scenario.emptySession
           Demo.jane
           (snd (findUser Demo.env (VStr (js "jane")) VUndef emptyWorld))).
  - reflexivity.
  - reflexivity.
Defined.

Lemma strictEq_undefined (v : jsval) :
  strictEq v VUndef = true <-> v = VUndef.
Proof. destruct v; simpl; split; congruence. Qed.

(** For a user that the directory does not hold, userIsMemberOf does not
    reject: it compares the members with the missing dn of the empty record,
    and resolves with true exactly when some member of the group has no
    dn. *)
Theorem userIsMemberOf_unknown_user (E : Env) (H : Env2) (U : jsstring)
    (groupName : jsval) (s : Session) (members : list Record_) :
  cache_get U (world s) = None ->
  (find_reply E (trace (world s)
                   ++ [EvFind (userFilter (domain E) (lookupKey U))])
     = Resolved None \/
   find_reply E (trace (world s)
                   ++ [EvFind (userFilter (domain E) (lookupKey U))])
     = Resolved (Some [])) ->
  group_reply H
    (trace (world s) ++ [EvFind (userFilter (domain E) (lookupKey U))])
    (calls s ++ [CallGetGroupUsers groupName]) = Resolved members ->
  exists b,
    fst (userIsMemberOf E H (VStr U) groupName s) = Resolved b /\
    (b = true <-> exists m, In m members /\ prop m "dn" = VUndef).
Proof.
  intros Hmiss Hreply Hgroup.
  rewrite userIsMemberOf_run, (findUser_miss E U VUndef (world s) Hmiss).
  cbv zeta. cbn [trace log].
  destruct Hreply as [-> | ->]; cbn [trace cache_set log]; rewrite Hgroup;
    (eexists; split; [reflexivity |]);
    rewrite filter_nonempty;
    (split; intros (m & Hin & Hm); exists m; (split; [exact Hin |]);
     [apply strictEq_undefined in Hm; exact Hm
     | apply strictEq_undefined; exact Hm]).
Qed.

Lemma userIsMemberOf_unknown_user_witness :
  exists b,
    fst (userIsMemberOf Demo.env (Scenario.env2Of Scenario.deleteOk)
           (VStr (js "ghost")) (VStr (js "Sales")) Scenario.emptySession)
    = Resolved b /\
    (b = true <->
     exists m,
       In m [Demo.jane; {[js "cn" := VStr (js "orphan")]}] /\
       prop m "dn" = VUndef).
Proof.
  apply (userIsMemberOf_unknown_user Demo.env
           (Scenario.env2Of Scenario.deleteOk) (js "ghost")
           (VStr (js "Sales")) Scenario.emptySession).
  - reflexivity.
  - right. reflexivity.
  - reflexivity.
Defined.
